(** * wooden_structure: an unbalanced binary search tree

    A shallow embedding of [src/wooden_structure/wooden_structure.py]
    (classes [TraverseType], [Node], [BinaryTree]) and the properties of
    its insertion, deletion, membership test and traversals.

    Conventions of the embedding.
    - [Node | None] is the type [tree]: [Leaf] stands for [None] and
      [Node value depth left right] for a node object.  Every node has one
      owner (its parent or the tree's [root]), so the in-place updates
      [node.left = ...], [node.right = ...], [node.value = ...] are
      rendered as rebuilding the node on the way back up, which is how the
      source itself threads the result ([return node]).
    - Stored values are Python integers, [Z]; the depth counter starts at
      0 and only grows by one, [nat].
    - A generator is the finite list of the node objects it yields.
    - An exception is a [Raise] in the [result] monad.
    - The interpreter's recursion limit is a resource bound outside the
      program text and is not modelled: every recursion runs to its
      end. *)

From Stdlib Require Import ZArith List Bool Lia Sorted Permutation.
From Stdlib Require String DecimalString DecimalZ DecimalPos.
Import String.StringSyntax.
Delimit Scope string_scope with string.
Import ListNotations.
Local Open Scope Z_scope.

(** ** Exceptions *)

Inductive exn : Type :=
| TypeError       (* 'NoneType' object is not iterable *)
| AttributeError. (* 'NoneType' object has no attribute ... *)

Inductive result (A : Type) : Type :=
| Ok (a : A)
| Raise (e : exn).

Arguments Ok {A} a.
Arguments Raise {A} e.

Definition bind {A B : Type} (m : result A) (k : A -> result B) : result B :=
  match m with
  | Ok a => k a
  | Raise e => Raise e
  end.

Notation "x <- m ;; k" := (bind m (fun x => k))
  (at level 61, m at next level, right associativity).

(** ** Data model *)

Inductive TraverseType : Type :=
| PRE_ORDER
| IN_ORDER
| POST_ORDER
| LEVEL_ORDER.

Inductive tree : Type :=
| Leaf
| Node (value : Z) (depth : nat) (left right : tree).

Record BinaryTree : Type := mkBinaryTree {
  root : tree;
  traverse_type : TraverseType
}.

(** [Node.__eq__] against a bare value; [None == value] is [False]. *)
Definition Node_eq (node : tree) (other : Z) : bool :=
  match node with
  | Leaf => false
  | Node value _ _ _ => value =? other
  end.

(** [node.value] and [node.depth] of a yielded node, for statements. *)
Definition value_of (node : tree) : option Z :=
  match node with
  | Leaf => None
  | Node value _ _ _ => Some value
  end.

Definition depth_of (node : tree) : option nat :=
  match node with
  | Leaf => None
  | Node _ depth _ _ => Some depth
  end.

(** ** Traversals, [BinaryTree.__iter__] *)

Fixpoint _pre_order (node : tree) : list tree :=
  match node with
  | Leaf => []
  | Node _ _ l r => node :: _pre_order l ++ _pre_order r
  end.

Fixpoint _in_order (node : tree) : list tree :=
  match node with
  | Leaf => []
  | Node _ _ l r => _in_order l ++ node :: _in_order r
  end.

Fixpoint _post_order (node : tree) : list tree :=
  match node with
  | Leaf => []
  | Node _ _ l r => _post_order l ++ _post_order r ++ [node]
  end.

(** The [dict[int, list[Node]]] of [_level_order].  A Python dict keeps
    its keys in the order of their first insertion and [values()] follows
    that order, so the dict is an association list: a new key goes to the
    end, an existing key keeps its place. *)
Definition dict : Type := list (nat * list tree).

Fixpoint dict_has (k : nat) (d : dict) : bool :=
  match d with
  | [] => false
  | (k', _) :: d' => if Nat.eqb k' k then true else dict_has k d'
  end.

(** [result[k] = v] *)
Fixpoint dict_set (k : nat) (v : list tree) (d : dict) : dict :=
  match d with
  | [] => [(k, v)]
  | (k', v') :: d' =>
      if Nat.eqb k' k then (k', v) :: d' else (k', v') :: dict_set k v d'
  end.

(** [result[k].append(node)], for a key that is present *)
Fixpoint dict_append (k : nat) (node : tree) (d : dict) : dict :=
  match d with
  | [] => []
  | (k', v') :: d' =>
      if Nat.eqb k' k then (k', v' ++ [node]) :: d'
      else (k', v') :: dict_append k node d'
  end.

Definition dict_values (d : dict) : list (list tree) := map snd d.

Definition dict_keys (d : dict) : list nat := map fst d.

(** The inner function [_] of [_level_order]. *)
Fixpoint _level_fill (node : tree) (result : dict) : dict :=
  match node with
  | Leaf => result
  | Node _ depth l r =>
      let result :=
        if negb (dict_has depth result)
        then dict_set depth [node] result
        else dict_append depth node result in
      let result := _level_fill l result in
      let result := _level_fill r result in
      result
  end.

Definition _level_order (node : tree) : list tree :=
  concat (dict_values (_level_fill node [])).

Definition __iter__ (self : BinaryTree) : list tree :=
  match traverse_type self with
  | PRE_ORDER => _pre_order (root self)
  | IN_ORDER => _in_order (root self)
  | POST_ORDER => _post_order (root self)
  | LEVEL_ORDER => _level_order (root self)
  end.

(** ** Membership, [BinaryTree.__contains__] *)

Fixpoint contains_loop (nodes : list tree) (value : Z) : bool :=
  match nodes with
  | [] => false
  | _node :: rest => if Node_eq _node value then true else contains_loop rest value
  end.

Definition __contains__ (self : BinaryTree) (value : Z) : bool :=
  contains_loop (__iter__ self) value.

(** ** Insertion, [BinaryTree.insert] *)

Fixpoint _insert (node : tree) (value : Z) (depth : nat) : tree :=
  match node with
  | Leaf => Node value depth Leaf Leaf
  | Node v d l r =>
      if value =? v then node
      else if value <? v then Node v d (_insert l value (S depth)) r
      else Node v d l (_insert r value (S depth))
  end.

Definition insert (self : BinaryTree) (value : Z) : BinaryTree :=
  mkBinaryTree (_insert (root self) value 0) (traverse_type self).

(** ** Deletion, [BinaryTree.delete] *)

(** [_search_min] and [_delete_min] read [node.left] at once: on [None]
    that is an [AttributeError]. *)
Fixpoint _search_min (node : tree) : result Z :=
  match node with
  | Leaf => Raise AttributeError
  | Node value _ Leaf _ => Ok value
  | Node _ _ l _ => _search_min l
  end.

Fixpoint _delete_min (node : tree) : result tree :=
  match node with
  | Leaf => Raise AttributeError
  | Node _ _ Leaf r => Ok r
  | Node value depth l r =>
      l' <- _delete_min l ;;
      Ok (Node value depth l' r)
  end.

Fixpoint _delete (node : tree) (value : Z) : result tree :=
  match node with
  | Leaf => Ok node
  | Node v d l r =>
      if value =? v then
        match l, r with
        | Leaf, _ => Ok r
        | _, Leaf => Ok l
        | _, _ =>
            v' <- _search_min r ;;
            r' <- _delete_min r ;;
            Ok (Node v' d l r')
        end
      else if value <? v then
        l' <- _delete l value ;;
        Ok (Node v d l' r)
      else
        r' <- _delete r value ;;
        Ok (Node v d l r')
  end.

Definition delete (self : BinaryTree) (value : Z) : result BinaryTree :=
  root' <- _delete (root self) value ;;
  Ok (mkBinaryTree root' (traverse_type self)).

(** ** Construction, [BinaryTree.__init__] *)

(** [for i in iterable: self.insert(i)] *)
Fixpoint init_loop (self : BinaryTree) (items : list Z) : BinaryTree :=
  match items with
  | [] => self
  | i :: items' => init_loop (insert self i) items'
  end.

(** The parameter [iterable] is [Iterable | None]; iterating [None]
    raises [TypeError]. *)
Definition __init__ (iterable : option (list Z)) (traverse_type : TraverseType)
  : result BinaryTree :=
  let self := mkBinaryTree Leaf traverse_type in
  match iterable with
  | None => Raise TypeError
  | Some items => Ok (init_loop self items)
  end.

(** The declared defaults of [__init__]. *)
Definition default_iterable : option (list Z) := None.
Definition default_traverse_type : TraverseType := PRE_ORDER.

(** ** Specification vocabulary *)

(** [stored x t]: some node of [t] holds the value [x]. *)
Fixpoint stored (x : Z) (t : tree) : Prop :=
  match t with
  | Leaf => False
  | Node v _ l r => x = v \/ stored x l \/ stored x r
  end.

(** The ordering invariant: at every node, the values of the left subtree
    are strictly below the node's value and those of the right subtree
    strictly above. *)
Fixpoint bst (t : tree) : Prop :=
  match t with
  | Leaf => True
  | Node v _ l r =>
      (forall x, stored x l -> x < v) /\
      (forall x, stored x r -> v < x) /\
      bst l /\ bst r
  end.

(** Number of node objects of a tree. *)
Fixpoint size (t : tree) : nat :=
  match t with
  | Leaf => O
  | Node _ _ l r => S (size l + size r)
  end.

(** The values of a sequence of yielded nodes. *)
Fixpoint values_of (nodes : list tree) : list Z :=
  match nodes with
  | [] => []
  | Leaf :: rest => values_of rest
  | Node v _ _ _ :: rest => v :: values_of rest
  end.

Definition is_node (t : tree) : Prop :=
  match t with
  | Leaf => False
  | Node _ _ _ _ => True
  end.

(** The empty tree a constructor call starts from. *)
Definition empty (traverse_type : TraverseType) : BinaryTree :=
  mkBinaryTree Leaf traverse_type.

(** Calls made on a tree after its construction. *)
Inductive op : Type :=
| Insert (value : Z)
| Delete (value : Z).

Definition step (self : BinaryTree) (o : op) : result BinaryTree :=
  match o with
  | Insert value => Ok (insert self value)
  | Delete value => delete self value
  end.

Fixpoint run (self : BinaryTree) (ops : list op) : result BinaryTree :=
  match ops with
  | [] => Ok self
  | o :: ops' => self' <- step self o ;; run self' ops'
  end.

(** A tree state the public interface can produce: a constructor call
    followed by any sequence of [insert] and [delete] calls. *)
Definition reachable (self : BinaryTree) : Prop :=
  exists (items : list Z) (tt : TraverseType) (ops : list op),
    (self0 <- __init__ (Some items) tt ;; run self0 ops) = Ok self.

(** Positions in a tree: the turns taken from its root. *)
Inductive dir : Type :=
| GoLeft
| GoRight.

(** The node object found at a position ([Leaf] when the walk falls off). *)
Fixpoint subtree (p : list dir) (t : tree) : tree :=
  match p, t with
  | [], _ => t
  | GoLeft :: p', Node _ _ l _ => subtree p' l
  | GoRight :: p', Node _ _ _ r => subtree p' r
  | _ :: _, Leaf => Leaf
  end.

(** [graft p s t]: the tree [t] with the child link at position [p] set
    to [s]; every node on the way keeps its value and its depth. *)
Fixpoint graft (p : list dir) (s : tree) (t : tree) : tree :=
  match p, t with
  | [], _ => s
  | GoLeft :: p', Node v d l r => Node v d (graft p' s l) r
  | GoRight :: p', Node v d l r => Node v d l (graft p' s r)
  | _ :: _, Leaf => Leaf
  end.

(** The position of the leftmost descendant: left turns while a left
    child exists. *)
Fixpoint leftmost (t : tree) : list dir :=
  match t with
  | Leaf => []
  | Node _ _ Leaf _ => []
  | Node _ _ l _ => GoLeft :: leftmost l
  end.

(** Bookkeeping over a history of calls, for the node count.
    [inserted ops]: the values passed to [insert], in call order.
    [additions self ops]: the [insert] calls whose value was not in the
    tree when the call was made.
    [removals self ops]: the [delete] calls whose value was in the tree
    when the call was made. *)
Fixpoint inserted (ops : list op) : list Z :=
  match ops with
  | [] => []
  | Insert v :: ops' => v :: inserted ops'
  | Delete _ :: ops' => inserted ops'
  end.

Definition adds (self : BinaryTree) (o : op) : nat :=
  match o with
  | Insert v => if __contains__ self v then 0%nat else 1%nat
  | Delete _ => 0%nat
  end.

Definition removes (self : BinaryTree) (o : op) : nat :=
  match o with
  | Insert _ => 0%nat
  | Delete v => if __contains__ self v then 1%nat else 0%nat
  end.

Fixpoint additions (self : BinaryTree) (ops : list op) : nat :=
  match ops with
  | [] => 0%nat
  | o :: ops' =>
      (adds self o +
       match step self o with
       | Ok self' => additions self' ops'
       | Raise _ => 0
       end)%nat
  end.

Fixpoint removals (self : BinaryTree) (ops : list op) : nat :=
  match ops with
  | [] => 0%nat
  | o :: ops' =>
      (removes self o +
       match step self o with
       | Ok self' => removals self' ops'
       | Raise _ => 0
       end)%nat
  end.

(** The node count as the specification words it: the number of distinct
    values ever inserted minus the number of deletes that removed a
    present value. *)
Definition distinct_inserted_minus_removed (tt : TraverseType) (ops : list op) : nat :=
  (length (nodup Z.eq_dec (inserted ops)) - removals (empty tt) ops)%nat.

(** The calls a constructor makes for its initial sequence. *)
Definition init_ops (items : list Z) : list op := map Insert items.

(** Example trees. *)
Definition demo_items : list Z :=
  [22; 19; 9; 11; 17; 20; 21; 10; 4; 12; 7; 14;
   24; 23; 16; 6; 13; 3; 5; 8; 2; 0; 1; 15; 18].

Definition small_items : list Z := [5; 3; 8; 2; 9].

Definition two_child_items : list Z := [5; 3; 8; 6; 7; 9].

(** [build tt items]: what [BinaryTree(items, tt)] returns;
    [after self ops]: the state after the calls [ops] ([delete] never
    raises, see [run_total]). *)
Definition build (tt : TraverseType) (items : list Z) : BinaryTree :=
  init_loop (empty tt) items.

Definition after (self : BinaryTree) (ops : list op) : BinaryTree :=
  match run self ops with
  | Ok self' => self'
  | Raise _ => self
  end.

(** The node-count sentence of the specification, read literally. *)
Definition node_count_as_worded : Prop :=
  forall (items : list Z) (tt : TraverseType) (ops : list op) (self : BinaryTree),
    (self0 <- __init__ (Some items) tt ;; run self0 ops) = Ok self ->
    length (__iter__ self) =
    distinct_inserted_minus_removed tt (init_ops items ++ ops).

(** Vocabulary for the level-order scan.  [dict_get] is [result[k]]
    (empty when the key is missing); [has_depth k node] tests the depth
    field; [height] is the number of levels; [depth_ok k t] says that the
    depth fields of [t], hanging at level [k], are the true levels. *)
Fixpoint dict_get (k : nat) (d : dict) : list tree :=
  match d with
  | [] => []
  | (k', v) :: d' => if Nat.eqb k' k then v else dict_get k d'
  end.

Definition has_depth (k : nat) (node : tree) : bool :=
  match node with
  | Leaf => false
  | Node _ d _ _ => Nat.eqb d k
  end.

Fixpoint height (t : tree) : nat :=
  match t with
  | Leaf => O
  | Node _ _ l r => S (Nat.max (height l) (height r))
  end.

Fixpoint depth_ok (k : nat) (t : tree) : Prop :=
  match t with
  | Leaf => True
  | Node _ d l r => d = k /\ depth_ok (S k) l /\ depth_ok (S k) r
  end.

(** ** The rest of [Node]: comparisons and [__repr__] *)

(** The argument [other : Any] of the comparison methods: a node object
    or [None] ([OfNode]), or a bare value ([OfValue]). *)
Inductive operand : Type :=
| OfNode (node : tree)
| OfValue (value : Z).

(** The six rich comparisons.  Each one tests [isinstance(other, Node)]
    and compares [self.value] with [other.value], else with [other]
    itself.  Reading [self.value] on [None] is an [AttributeError]; an
    integer ordered against [None] is a [TypeError], while [==] and [!=]
    against [None] answer [False] and [True]. *)
Definition __lt__ (self : tree) (other : operand) : result bool :=
  match self with
  | Leaf => Raise AttributeError
  | Node value _ _ _ =>
      match other with
      | OfNode (Node other_value _ _ _) => Ok (value <? other_value)
      | OfNode Leaf => Raise TypeError
      | OfValue other => Ok (value <? other)
      end
  end.

Definition __le__ (self : tree) (other : operand) : result bool :=
  match self with
  | Leaf => Raise AttributeError
  | Node value _ _ _ =>
      match other with
      | OfNode (Node other_value _ _ _) => Ok (value <=? other_value)
      | OfNode Leaf => Raise TypeError
      | OfValue other => Ok (value <=? other)
      end
  end.

Definition __eq__ (self : tree) (other : operand) : result bool :=
  match self with
  | Leaf => Raise AttributeError
  | Node value _ _ _ =>
      match other with
      | OfNode (Node other_value _ _ _) => Ok (value =? other_value)
      | OfNode Leaf => Ok false
      | OfValue other => Ok (value =? other)
      end
  end.

Definition __ne__ (self : tree) (other : operand) : result bool :=
  match self with
  | Leaf => Raise AttributeError
  | Node value _ _ _ =>
      match other with
      | OfNode (Node other_value _ _ _) => Ok (negb (value =? other_value))
      | OfNode Leaf => Ok true
      | OfValue other => Ok (negb (value =? other))
      end
  end.

Definition __gt__ (self : tree) (other : operand) : result bool :=
  match self with
  | Leaf => Raise AttributeError
  | Node value _ _ _ =>
      match other with
      | OfNode (Node other_value _ _ _) => Ok (value >? other_value)
      | OfNode Leaf => Raise TypeError
      | OfValue other => Ok (value >? other)
      end
  end.

Definition __ge__ (self : tree) (other : operand) : result bool :=
  match self with
  | Leaf => Raise AttributeError
  | Node value _ _ _ =>
      match other with
      | OfNode (Node other_value _ _ _) => Ok (value >=? other_value)
      | OfNode Leaf => Raise TypeError
      | OfValue other => Ok (value >=? other)
      end
  end.



(** ** [BinaryTree.view] *)





(** ** More specification vocabulary *)

(** The finite set a history of calls describes: [insert] adds a value,
    [delete] removes it. *)
Fixpoint model (S : list Z) (ops : list op) : list Z :=
  match ops with
  | [] => S
  | Insert v :: ops' => model (v :: S) ops'
  | Delete v :: ops' => model (remove Z.eq_dec v S) ops'
  end.

(** [depth_ge k t]: in [t], hanging at level [k], no depth field is below
    the node's true level. *)
Fixpoint depth_ge (k : nat) (t : tree) : Prop :=
  match t with
  | Leaf => True
  | Node _ d l r => (k <= d)%nat /\ depth_ge (S k) l /\ depth_ge (S k) r
  end.


(** The tree with the other traversal order, as after assigning
    [self.traverse_type]. *)
Definition with_order (tt : TraverseType) (self : BinaryTree) : BinaryTree :=
  mkBinaryTree (root self) tt.

(** The list-shaped tree: each value the right child of the one before,
    with depth fields counting up from [k]. *)
Fixpoint spine (items : list Z) (k : nat) : tree :=
  match items with
  | [] => Leaf
  | x :: items' => Node x k Leaf (spine items' (S k))
  end.


(** * Basic facts *)

Lemma bind_Ok_inv (A B : Type) (m : result A) (k : A -> result B) (b : B) :
  bind m k = Ok b -> exists a, m = Ok a /\ k a = Ok b.
Proof.
  destruct m as [a|e]; simpl; intros H; [eauto | discriminate].
Qed.

(** ** Insertion *)

Lemma _insert_stored (t : tree) (v : Z) (d : nat) (x : Z) :
  stored x (_insert t v d) <-> x = v \/ stored x t.
Proof.
  revert d; induction t as [|w dw l IHl r IHr]; intros d; simpl.
  - tauto.
  - destruct (Z.eqb_spec v w) as [->|Hne]; simpl; [tauto|].
    destruct (v <? w); simpl; [rewrite IHl | rewrite IHr]; tauto.
Qed.

Lemma _insert_bst (t : tree) (v : Z) (d : nat) :
  bst t -> bst (_insert t v d).
Proof.
  revert d; induction t as [|w dw l IHl r IHr]; intros d; simpl.
  - intuition.
  - intros (Hl & Hr & Bl & Br).
    destruct (Z.eqb_spec v w) as [->|Hne]; simpl; [tauto|].
    destruct (Z.ltb_spec v w) as [Hlt|Hge]; simpl; repeat split; auto.
    + intros x Hx. apply _insert_stored in Hx. destruct Hx as [->|Hx]; auto.
    + intros x Hx. apply _insert_stored in Hx. destruct Hx as [->|Hx]; auto. lia.
Qed.

Lemma _insert_present (t : tree) (v : Z) (d : nat) :
  bst t -> stored v t -> _insert t v d = t.
Proof.
  revert d; induction t as [|w dw l IHl r IHr]; intros d; simpl.
  - tauto.
  - intros (Hl & Hr & Bl & Br) Hv.
    destruct (Z.eqb_spec v w) as [->|Hne]; [reflexivity|].
    destruct Hv as [Hv|[Hv|Hv]]; [contradiction| |].
    + pose proof (Hl _ Hv) as Hlt. apply Z.ltb_lt in Hlt. rewrite Hlt.
      rewrite IHl; auto.
    + pose proof (Hr _ Hv) as Hgt.
      destruct (Z.ltb_spec v w) as [Hlt|Hge]; [lia|].
      rewrite IHr; auto.
Qed.

Lemma _insert_size_absent (t : tree) (v : Z) (d : nat) :
  ~ stored v t -> size (_insert t v d) = S (size t).
Proof.
  revert d; induction t as [|w dw l IHl r IHr]; intros d; simpl.
  - reflexivity.
  - intros Hv.
    destruct (Z.eqb_spec v w) as [->|Hne]; [tauto|].
    destruct (v <? w); simpl; [rewrite IHl | rewrite IHr]; auto; lia.
Qed.

(** ** Deletion *)

(** What [_search_min] and [_delete_min] do on a node object. *)
Lemma min_spec (t : tree) :
  is_node t ->
  exists m t',
    _search_min t = Ok m /\ _delete_min t = Ok t' /\
    (forall x, stored x t <-> x = m \/ stored x t') /\
    (bst t -> bst t' /\ forall x, stored x t' -> m < x) /\
    size t = S (size t').
Proof.
  induction t as [|w dw l IHl r IHr]; simpl; [tauto|]. intros _.
  destruct l as [|lv ld ll lr].
  - exists w, r. simpl. repeat split; try tauto.
  - destruct IHl as (m & l' & Hs & Hd & Hst & Hb & Hsz); [exact I|].
    exists m, (Node w dw l' r).
    rewrite Hs, Hd. cbn [bind].
    split; [reflexivity|]. split; [reflexivity|]. split; [|split].
    + intros x. cbn [stored] in *. rewrite (Hst x). tauto.
    + cbn [bst]. intros (Hl & Hr & Bl & Br).
      destruct (Hb Bl) as (Bl' & Hm).
      assert (Hmw : m < w) by (apply Hl, Hst; auto).
      split.
      * repeat split; auto. intros x Hx. apply Hl, Hst; auto.
      * cbn [stored]. intros x [->|[Hx|Hx]]; auto.
        specialize (Hr _ Hx). lia.
    + cbn [size] in *. lia.
Qed.

(** [_delete] never raises, and what it returns. *)
Lemma _delete_spec (t : tree) (v : Z) :
  exists t',
    _delete t v = Ok t' /\
    (forall x, stored x t' -> stored x t) /\
    (bst t -> bst t' /\ forall x, stored x t' <-> stored x t /\ x <> v).
Proof.
  induction t as [|w dw l IHl r IHr].
  - exists Leaf. simpl. tauto.
  - cbn [_delete].
    destruct (Z.eqb_spec v w) as [->|Hne].
    + destruct l as [|lv ld ll lr].
      { exists r. split; [reflexivity|]. split; [cbn [stored]; tauto|].
        cbn [bst]. intros (Hl & Hr & Bl & Br). split; [exact Br|].
        intros x. cbn [stored]. split.
        - intros Hx. split; [tauto|]. specialize (Hr _ Hx). lia.
        - intros [[? | [[] | ?]] ?]; tauto. }
      destruct r as [|rv rd rl rr].
      { set (L := Node lv ld ll lr).
        exists L. split; [reflexivity|]. split; [cbn [stored]; tauto|].
        intros (Hl & Hr & Bl & Br). split; [exact Bl|].
        intros x. change (stored x (Node w dw L Leaf)) with (x = w \/ stored x L \/ False).
        split.
        - intros Hx. split; [tauto|]. specialize (Hl _ Hx). lia.
        - intros [[? | [? | []]] ?]; tauto. }
      destruct (min_spec (Node rv rd rl rr) I) as (m & r' & Hs & Hd & Hst & Hb & _).
      exists (Node m dw (Node lv ld ll lr) r').
      rewrite Hs, Hd. cbn [bind]. split; [reflexivity|].
      set (L := Node lv ld ll lr) in *. set (Rt := Node rv rd rl rr) in *.
      split.
      * cbn [stored]. intros x [->|[Hx|Hx]]; auto.
        -- right; right. apply Hst; auto.
        -- right; right. apply Hst; auto.
      * cbn [bst]. intros (Hl & Hr & Bl & Br).
        destruct (Hb Br) as (Br' & Hm).
        assert (Hwm : w < m) by (apply Hr, Hst; auto).
        split.
        -- split; [|split; [|split]]; auto.
           intros x Hx. specialize (Hl _ Hx). lia.
        -- intros x. cbn [stored]. rewrite (Hst x). split.
           ++ intros [->|[Hx|Hx]].
              ** split; [tauto | lia].
              ** split; [tauto|]. specialize (Hl _ Hx). lia.
              ** split; [tauto|]. specialize (Hm _ Hx). lia.
           ++ intros [[->|[Hx|[->|Hx]]] Hn]; tauto.
    + destruct (Z.ltb_spec v w) as [Hlt|Hge].
      * destruct IHl as (l' & Hd & Hsub & Hb).
        exists (Node w dw l' r). rewrite Hd. cbn [bind].
        split; [reflexivity|]. split.
        -- cbn [stored]. intros x [->|[Hx|Hx]]; auto.
        -- cbn [bst]. intros (Hl & Hr & Bl & Br).
           destruct (Hb Bl) as (Bl' & Hst). split.
           ++ repeat split; auto.
           ++ intros x. cbn [stored]. rewrite (Hst x). split.
              ** intros [->|[[Hx Hn]|Hx]]; (split; [tauto|]); auto; try lia.
                 specialize (Hr _ Hx). lia.
              ** intros [[->|[Hx|Hx]] Hn]; tauto.
      * destruct IHr as (r' & Hd & Hsub & Hb).
        exists (Node w dw l r'). rewrite Hd. cbn [bind].
        split; [reflexivity|]. split.
        -- cbn [stored]. intros x [->|[Hx|Hx]]; auto.
        -- cbn [bst]. intros (Hl & Hr & Bl & Br).
           destruct (Hb Br) as (Br' & Hst). split.
           ++ repeat split; auto.
           ++ intros x. cbn [stored]. rewrite (Hst x). split.
              ** intros [->|[Hx|[Hx Hn]]]; (split; [tauto|]); auto; try lia.
                 specialize (Hl _ Hx). lia.
              ** intros [[->|[Hx|Hx]] Hn]; tauto.
Qed.

Lemma _delete_total (t : tree) (v : Z) : exists t', _delete t v = Ok t'.
Proof.
  destruct (_delete_spec t v) as (t' & H & _). eauto.
Qed.

Lemma _delete_bst (t t' : tree) (v : Z) :
  bst t -> _delete t v = Ok t' -> bst t'.
Proof.
  intros B H. destruct (_delete_spec t v) as (t'' & H' & _ & Hb).
  rewrite H in H'. injection H' as <-. apply Hb, B.
Qed.

Lemma _delete_absent (t : tree) (v : Z) :
  ~ stored v t -> _delete t v = Ok t.
Proof.
  induction t as [|w dw l IHl r IHr]; cbn [_delete stored]; intros Hv.
  - reflexivity.
  - destruct (Z.eqb_spec v w) as [->|Hne]; [tauto|].
    destruct (v <? w).
    + rewrite IHl by tauto. reflexivity.
    + rewrite IHr by tauto. reflexivity.
Qed.

Lemma _delete_size_present (t t' : tree) (v : Z) :
  bst t -> stored v t -> _delete t v = Ok t' -> size t = S (size t').
Proof.
  revert t'; induction t as [|w dw l IHl r IHr]; intros t'; cbn [_delete stored bst].
  - tauto.
  - intros (Hl & Hr & Bl & Br) Hv.
    destruct (Z.eqb_spec v w) as [->|Hne].
    + destruct l as [|lv ld ll lr].
      { intros [= <-]. reflexivity. }
      destruct r as [|rv rd rl rr].
      { intros [= <-]. cbn [size]. lia. }
      destruct (min_spec (Node rv rd rl rr) I) as (m & r' & Hs & Hd & _ & _ & Hsz).
      rewrite Hs, Hd. cbn [bind]. intros [= <-].
      change (size (Node w dw (Node lv ld ll lr) (Node rv rd rl rr)))
        with (S (size (Node lv ld ll lr) + size (Node rv rd rl rr))).
      rewrite Hsz. cbn [size]. lia.
    + destruct Hv as [Hv|[Hv|Hv]]; [contradiction| |].
      * pose proof (Hl _ Hv) as Hlt. apply Z.ltb_lt in Hlt. rewrite Hlt.
        destruct (_delete l v) as [l'|e] eqn:Hd; cbn [bind]; [|discriminate].
        intros [= <-]. cbn [size]. rewrite (IHl l') by auto. lia.
      * pose proof (Hr _ Hv) as Hgt.
        destruct (Z.ltb_spec v w) as [Hlt|Hge]; [lia|].
        destruct (_delete r v) as [r'|e] eqn:Hd; cbn [bind]; [|discriminate].
        intros [= <-]. cbn [size]. rewrite (IHr r') by auto. lia.
Qed.

(** ** Traversals *)

Lemma values_of_app (a b : list tree) :
  values_of (a ++ b) = values_of a ++ values_of b.
Proof.
  induction a as [|[|v d l r] a IH]; simpl; congruence.
Qed.

Lemma values_of_Permutation (a b : list tree) :
  Permutation a b -> Permutation (values_of a) (values_of b).
Proof.
  induction 1 as [|x a b _ IH|x y a|a b c _ IHab _ IHbc].
  - constructor.
  - destruct x; simpl; auto.
  - destruct x, y; simpl; auto using perm_swap.
  - eapply Permutation_trans; eauto.
Qed.


Lemma _pre_order_is_node (t : tree) : Forall is_node (_pre_order t).
Proof.
  induction t as [|v d l IHl r IHr]; simpl.
  - constructor.
  - constructor; [exact I|]. apply Forall_app; auto.
Qed.

Lemma _pre_order_stored (t : tree) (x : Z) :
  In x (values_of (_pre_order t)) <-> stored x t.
Proof.
  induction t as [|v d l IHl r IHr]; simpl.
  - tauto.
  - rewrite values_of_app, in_app_iff, IHl, IHr. intuition.
Qed.

Lemma _pre_order_length (t : tree) : length (_pre_order t) = size t.
Proof.
  induction t as [|v d l IHl r IHr]; simpl.
  - reflexivity.
  - rewrite length_app, IHl, IHr. reflexivity.
Qed.

Lemma _in_order_Permutation (t : tree) : Permutation (_in_order t) (_pre_order t).
Proof.
  induction t as [|v d l IHl r IHr]; simpl.
  - constructor.
  - apply Permutation_sym, Permutation_cons_app, Permutation_sym.
    apply Permutation_app; assumption.
Qed.

Lemma _post_order_Permutation (t : tree) : Permutation (_post_order t) (_pre_order t).
Proof.
  induction t as [|v d l IHl r IHr]; simpl.
  - constructor.
  - rewrite app_assoc. eapply Permutation_trans.
    + apply Permutation_app_comm.
    + simpl. constructor. apply Permutation_app; assumption.
Qed.

(** The order-keeping dict of the level-order scan. *)

Lemma dict_set_fresh (k : nat) (v : list tree) (d : dict) :
  dict_has k d = false -> dict_set k v d = d ++ [(k, v)].
Proof.
  induction d as [|[k' v'] d IH]; simpl.
  - reflexivity.
  - destruct (Nat.eqb k' k); [discriminate|]. intros H. rewrite IH; auto.
Qed.

Lemma dict_append_values (k : nat) (n : tree) (d : dict) :
  dict_has k d = true ->
  Permutation (concat (dict_values (dict_append k n d)))
              (concat (dict_values d) ++ [n]).
Proof.
  unfold dict_values.
  induction d as [|[k' v'] d IH]; simpl.
  - discriminate.
  - destruct (Nat.eqb k' k); simpl; intros H.
    + rewrite <- !app_assoc. apply Permutation_app_head, Permutation_app_comm.
    + rewrite <- app_assoc. apply Permutation_app_head, IH, H.
Qed.

Lemma _level_fill_Permutation (t : tree) (acc : dict) :
  Permutation (concat (dict_values (_level_fill t acc)))
              (concat (dict_values acc) ++ _pre_order t).
Proof.
  revert acc; induction t as [|v d l IHl r IHr]; intros acc; cbn [_level_fill _pre_order].
  - rewrite app_nil_r. reflexivity.
  - rewrite IHr, IHl.
    set (n := Node v d l r).
    change (n :: _pre_order l ++ _pre_order r)
      with ([n] ++ _pre_order l ++ _pre_order r).
    rewrite <- app_assoc, (app_assoc _ [n]).
    apply Permutation_app_tail.
    destruct (dict_has d acc) eqn:Hh; cbn [negb].
    + apply dict_append_values, Hh.
    + rewrite dict_set_fresh by exact Hh.
      unfold dict_values. rewrite map_app, concat_app. simpl.
      reflexivity.
Qed.

Lemma _level_order_Permutation (t : tree) : Permutation (_level_order t) (_pre_order t).
Proof.
  unfold _level_order. rewrite _level_fill_Permutation. reflexivity.
Qed.

(** Every traversal order yields the same node objects. *)
Lemma __iter___Permutation (self : BinaryTree) :
  Permutation (__iter__ self) (_pre_order (root self)).
Proof.
  unfold __iter__. destruct (traverse_type self).
  - reflexivity.
  - apply _in_order_Permutation.
  - apply _post_order_Permutation.
  - apply _level_order_Permutation.
Qed.

Lemma __iter___is_node (self : BinaryTree) : Forall is_node (__iter__ self).
Proof.
  apply Forall_forall. intros n Hn.
  eapply Permutation_in in Hn; [|apply __iter___Permutation].
  revert n Hn. apply Forall_forall, _pre_order_is_node.
Qed.

Lemma __iter___length (self : BinaryTree) : length (__iter__ self) = size (root self).
Proof.
  rewrite (Permutation_length (__iter___Permutation self)).
  apply _pre_order_length.
Qed.

Lemma __iter___stored (self : BinaryTree) (x : Z) :
  In x (values_of (__iter__ self)) <-> stored x (root self).
Proof.
  rewrite <- _pre_order_stored.
  pose proof (values_of_Permutation _ _ (__iter___Permutation self)) as P.
  split; apply Permutation_in; [exact P | apply Permutation_sym, P].
Qed.

(** ** Membership *)

Lemma contains_loop_In (nodes : list tree) (v : Z) :
  contains_loop nodes v = true <-> In v (values_of nodes).
Proof.
  induction nodes as [|[|w d l r] rest IH]; simpl.
  - split; [discriminate | tauto].
  - exact IH.
  - destruct (Z.eqb_spec w v) as [->|Hne]; [tauto|].
    rewrite IH. intuition.
Qed.

Lemma __contains___stored (self : BinaryTree) (v : Z) :
  __contains__ self v = true <-> stored v (root self).
Proof.
  unfold __contains__. rewrite contains_loop_In. apply __iter___stored.
Qed.

(** ** In-order traversal of an ordered tree *)

Lemma _in_order_stored (t : tree) (x : Z) :
  In x (values_of (_in_order t)) <-> stored x t.
Proof.
  rewrite <- _pre_order_stored.
  pose proof (values_of_Permutation _ _ (_in_order_Permutation t)) as P.
  split; apply Permutation_in; [exact P | apply Permutation_sym, P].
Qed.

Lemma StronglySorted_lt_app (a b : list Z) :
  StronglySorted Z.lt a -> StronglySorted Z.lt b ->
  (forall x y, In x a -> In y b -> x < y) ->
  StronglySorted Z.lt (a ++ b).
Proof.
  induction 1 as [|x a Sa IH Hx]; simpl; intros Sb Hab.
  - exact Sb.
  - constructor.
    + apply IH; auto.
    + apply Forall_app; split; [exact Hx|].
      apply Forall_forall. intros y Hy. apply Hab; auto.
Qed.

Lemma _in_order_sorted (t : tree) :
  bst t -> StronglySorted Z.lt (values_of (_in_order t)).
Proof.
  induction t as [|v d l IHl r IHr]; simpl.
  - constructor.
  - intros (Hl & Hr & Bl & Br).
    rewrite values_of_app. simpl.
    apply StronglySorted_lt_app; auto.
    + constructor; auto.
      apply Forall_forall. intros y Hy. apply Hr, _in_order_stored, Hy.
    + intros x y Hx [<-|Hy].
      * apply Hl, _in_order_stored, Hx.
      * apply _in_order_stored in Hx, Hy.
        specialize (Hl _ Hx). specialize (Hr _ Hy). lia.
Qed.

(** ** Reachable states *)

Lemma init_loop_bst (items : list Z) (self : BinaryTree) :
  bst (root self) -> bst (root (init_loop self items)).
Proof.
  revert self; induction items as [|i items IH]; intros self B; simpl.
  - exact B.
  - apply IH. simpl. apply _insert_bst, B.
Qed.

Lemma delete_spec (self : BinaryTree) (v : Z) :
  exists t',
    delete self v = Ok (mkBinaryTree t' (traverse_type self)) /\
    _delete (root self) v = Ok t'.
Proof.
  destruct (_delete_total (root self) v) as (t' & H).
  exists t'. unfold delete. rewrite H. auto.
Qed.

Lemma step_bst (self self' : BinaryTree) (o : op) :
  bst (root self) -> step self o = Ok self' -> bst (root self').
Proof.
  intros B. destruct o as [v|v]; simpl.
  - intros [= <-]. simpl. apply _insert_bst, B.
  - destruct (delete_spec self v) as (t' & -> & Hd).
    intros [= <-]. simpl. eapply _delete_bst; eauto.
Qed.

Lemma step_total (self : BinaryTree) (o : op) : exists self', step self o = Ok self'.
Proof.
  destruct o as [v|v]; simpl; [eauto|].
  destruct (delete_spec self v) as (t' & -> & _). eauto.
Qed.

Lemma run_total (ops : list op) (self : BinaryTree) : exists self', run self ops = Ok self'.
Proof.
  revert self; induction ops as [|o ops IH]; intros self; simpl; [eauto|].
  destruct (step_total self o) as (s1 & ->). simpl. apply IH.
Qed.

Lemma run_bst (ops : list op) (self self' : BinaryTree) :
  bst (root self) -> run self ops = Ok self' -> bst (root self').
Proof.
  revert self; induction ops as [|o ops IH]; intros self B; simpl.
  - intros [= <-]. exact B.
  - intros H. apply bind_Ok_inv in H. destruct H as (s1 & Hs & Hr).
    eapply IH; [|exact Hr]. eapply step_bst; eauto.
Qed.

Lemma reachable_bst (self : BinaryTree) : reachable self -> bst (root self).
Proof.
  intros (items & tt & ops & H). simpl in H.
  eapply run_bst; [|exact H]. apply init_loop_bst. exact I.
Qed.

Lemma reachable_step (self self' : BinaryTree) (o : op) :
  reachable self -> step self o = Ok self' -> reachable self'.
Proof.
  intros (items & tt & ops & H) Hs. exists items, tt, (ops ++ [o]).
  simpl in *. revert H. generalize (init_loop (mkBinaryTree Leaf tt) items).
  induction ops as [|o' ops IH]; intros s; simpl.
  - intros [= ->]. rewrite Hs. reflexivity.
  - destruct (step s o') as [s1|e]; simpl; [apply IH | discriminate].
Qed.

(** * The properties of the specification *)

(** ** In-order traversal is sorted *)

(** C1. For every tree built by a constructor call followed by any
    sequence of inserts and deletes, iterating with
    [traverse_type = IN_ORDER] yields node objects whose values are
    exactly the stored values, in strictly ascending order. *)
Theorem in_order_ascending (self : BinaryTree) :
  reachable self ->
  traverse_type self = IN_ORDER ->
  Forall is_node (__iter__ self) /\
  StronglySorted Z.lt (values_of (__iter__ self)) /\
  (forall x, In x (values_of (__iter__ self)) <-> stored x (root self)).
Proof.
  intros Hr Ht. split; [|split].
  - apply __iter___is_node.
  - unfold __iter__. rewrite Ht. apply _in_order_sorted, reachable_bst, Hr.
  - intros x. apply __iter___stored.
Qed.

Lemma in_order_ascending_witness :
  let self := after (build IN_ORDER demo_items) [Delete 22; Insert 30; Delete 9] in
  reachable self /\
  traverse_type self = IN_ORDER /\
  Forall is_node (__iter__ self) /\
  StronglySorted Z.lt (values_of (__iter__ self)) /\
  (forall x, In x (values_of (__iter__ self)) <-> stored x (root self)).
Proof.
  intros self.
  assert (Hr : reachable self).
  { exists demo_items, IN_ORDER, [Delete 22; Insert 30; Delete 9]. reflexivity. }
  assert (Ht : traverse_type self = IN_ORDER) by reflexivity.
  split; [exact Hr|]. split; [exact Ht|].
  exact (in_order_ascending self Hr Ht).
Defined.

(** ** The ordering invariant *)

(** C2. The ordering invariant holds for the empty tree and is preserved
    by every insert and by every delete (which always returns). *)
Theorem bst_preserved :
  (forall tt, bst (root (empty tt))) /\
  (forall self v, bst (root self) -> bst (root (insert self v))) /\
  (forall self v, bst (root self) ->
     exists self', delete self v = Ok self' /\ bst (root self')).
Proof.
  split; [|split].
  - intros tt. exact I.
  - intros self v B. simpl. apply _insert_bst, B.
  - intros self v B.
    destruct (delete_spec self v) as (t' & Hd & Hd').
    eexists. split; [exact Hd|]. simpl. eapply _delete_bst; eauto.
Qed.

Lemma bst_preserved_witness :
  let self := build PRE_ORDER small_items in
  bst (root self) /\
  bst (root (insert self 4)) /\
  exists self', delete self 5 = Ok self' /\ bst (root self').
Proof.
  intros self.
  assert (B : bst (root self)) by (simpl; intuition lia).
  split; [exact B|]. split.
  - exact (proj1 (proj2 bst_preserved) self 4 B).
  - exact (proj2 (proj2 bst_preserved) self 5 B).
Defined.

(** ** Membership after insert and after delete *)

(** C4. In every reachable state and for every value [v]: right after
    [insert(v)], [contains(v)] is true; right after [delete(v)] -- be it
    directly after that insert or in any later state -- [contains(v)] is
    false. *)
Theorem contains_insert_delete (self : BinaryTree) (v : Z) :
  reachable self ->
  __contains__ (insert self v) v = true /\
  (exists self', delete (insert self v) v = Ok self' /\
                 __contains__ self' v = false) /\
  (exists self', delete self v = Ok self' /\ __contains__ self' v = false).
Proof.
  intros Hr.
  assert (Hdel : forall s, bst (root s) ->
            exists s', delete s v = Ok s' /\ __contains__ s' v = false).
  { intros s B. destruct (delete_spec s v) as (t' & Hd & Hd').
    eexists. split; [exact Hd|].
    destruct (_delete_spec (root s) v) as (t'' & Hd'' & _ & Hb).
    rewrite Hd' in Hd''. injection Hd'' as <-.
    destruct (Hb B) as (_ & Hst).
    apply not_true_is_false. rewrite __contains___stored. simpl.
    rewrite Hst. tauto. }
  split; [|split].
  - apply __contains___stored. simpl. apply _insert_stored. auto.
  - apply Hdel. simpl. apply _insert_bst, reachable_bst, Hr.
  - apply Hdel, reachable_bst, Hr.
Qed.

Lemma contains_insert_delete_witness :
  let self := build LEVEL_ORDER demo_items in
  reachable self /\
  __contains__ (insert self 40) 40 = true /\
  (exists self', delete (insert self 40) 40 = Ok self' /\
                 __contains__ self' 40 = false) /\
  (exists self', delete self 40 = Ok self' /\ __contains__ self' 40 = false).
Proof.
  intros self.
  assert (Hr : reachable self).
  { exists demo_items, LEVEL_ORDER, []. reflexivity. }
  split; [exact Hr|].
  exact (contains_insert_delete self 40 Hr).
Defined.

(** ** Duplicate inserts *)

(** C5. In every reachable state, inserting a value that is already stored
    returns the very same tree: no error, no overwrite, and in particular
    the same in-order sequence. *)
Theorem insert_present_unchanged (self : BinaryTree) (v : Z) :
  reachable self ->
  __contains__ self v = true ->
  insert self v = self /\
  _in_order (root (insert self v)) = _in_order (root self).
Proof.
  intros Hr Hc.
  assert (E : insert self v = self).
  { unfold insert. rewrite _insert_present.
    - destruct self; reflexivity.
    - apply reachable_bst, Hr.
    - apply __contains___stored, Hc. }
  rewrite E. auto.
Qed.

Lemma insert_present_unchanged_witness :
  let self := build IN_ORDER [5; 3; 3; 7] in
  reachable self /\
  __contains__ self 3 = true /\
  insert self 3 = self /\
  _in_order (root (insert self 3)) = _in_order (root self).
Proof.
  intros self.
  assert (Hr : reachable self).
  { exists [5; 3; 3; 7], IN_ORDER, []. reflexivity. }
  assert (Hc : __contains__ self 3 = true) by reflexivity.
  split; [exact Hr|]. split; [exact Hc|].
  exact (insert_present_unchanged self 3 Hr Hc).
Defined.

(** ** Deleting what is not there; the empty tree *)

(** C7. For every tree and every value [v] that is not in it, [delete(v)]
    returns normally and leaves the tree as it was.  On the empty tree,
    under each traversal order, iteration yields nothing, [contains] is
    false for every value and [delete] leaves the tree empty. *)
Theorem delete_absent_noop :
  (forall self v, __contains__ self v = false -> delete self v = Ok self) /\
  (forall tt v,
     __init__ (Some []) tt = Ok (empty tt) /\
     __iter__ (empty tt) = [] /\
     __contains__ (empty tt) v = false /\
     delete (empty tt) v = Ok (empty tt)).
Proof.
  split.
  - intros self v Hc. unfold delete. rewrite _delete_absent.
    + destruct self; reflexivity.
    + rewrite <- __contains___stored, Hc. discriminate.
  - intros tt v. destruct tt; repeat split; reflexivity.
Qed.

Lemma delete_absent_noop_witness :
  let self := build POST_ORDER small_items in
  __contains__ self 7 = false /\ delete self 7 = Ok self.
Proof.
  intros self.
  assert (Hc : __contains__ self 7 = false) by reflexivity.
  split; [exact Hc|].
  exact (proj1 delete_absent_noop self 7 Hc).
Defined.

(** ** Pre-order and post-order *)

Lemma _post_order_last (t : tree) :
  is_node t -> exists before, _post_order t = before ++ [t].
Proof.
  destruct t as [|v d l r]; simpl; [tauto|]. intros _.
  exists (_post_order l ++ _post_order r). rewrite <- app_assoc. reflexivity.
Qed.

(** C8. On a non-empty tree, pre-order iteration yields the root node
    first and post-order iteration yields the root node last; each of the
    two yields the empty sequence exactly when the tree is empty. *)
Theorem pre_post_order_root (self : BinaryTree) :
  (traverse_type self = PRE_ORDER -> is_node (root self) ->
     hd_error (__iter__ self) = Some (root self)) /\
  (traverse_type self = POST_ORDER -> is_node (root self) ->
     exists before, __iter__ self = before ++ [root self]) /\
  (traverse_type self = PRE_ORDER \/ traverse_type self = POST_ORDER ->
     (__iter__ self = [] <-> root self = Leaf)).
Proof.
  unfold __iter__. split; [|split].
  - intros -> Hn. destruct (root self); [destruct Hn | reflexivity].
  - intros -> Hn. apply _post_order_last, Hn.
  - intros [-> | ->]; destruct (root self) as [|v d l r]; simpl;
      split; auto; try discriminate.
    intros H. apply (f_equal (@length tree)) in H.
    rewrite !length_app in H. simpl in H. lia.
Qed.

Lemma pre_post_order_root_witness :
  let pre := build PRE_ORDER demo_items in
  let post := build POST_ORDER demo_items in
  hd_error (__iter__ pre) = Some (root pre) /\
  (exists before, __iter__ post = before ++ [root post]) /\
  (__iter__ pre = [] <-> root pre = Leaf).
Proof.
  intros pre post. split; [|split].
  - exact (proj1 (pre_post_order_root pre) eq_refl I).
  - exact (proj1 (proj2 (pre_post_order_root post)) eq_refl I).
  - exact (proj2 (proj2 (pre_post_order_root pre)) (or_introl eq_refl)).
Defined.

(** ** The constructor *)

(** C10. The constructor iterates its [iterable] argument without a
    check: with the declared default [None] (or an explicit [None]) it
    raises [TypeError] instead of giving an empty tree; with an explicit
    empty sequence it returns the empty tree. *)
Theorem init_None_raises (tt : TraverseType) :
  __init__ default_iterable tt = Raise TypeError /\
  __init__ None tt = Raise TypeError /\
  __init__ default_iterable default_traverse_type = Raise TypeError /\
  __init__ (Some []) tt = Ok (mkBinaryTree Leaf tt) /\
  (forall self, __init__ (Some []) tt = Ok self -> __iter__ self = []).
Proof.
  repeat split; try reflexivity.
  intros self [= <-]. destruct tt; reflexivity.
Qed.

(** ** Deleting a node that has both children *)

Lemma leftmost_spec (t : tree) :
  is_node t ->
  exists m dm rm,
    subtree (leftmost t) t = Node m dm Leaf rm /\
    _search_min t = Ok m /\
    _delete_min t = Ok (graft (leftmost t) rm t).
Proof.
  induction t as [|w dw l IHl r _]; [intros []|intros _].
  destruct l as [|lv ld ll lr].
  - exists w, dw, r. repeat split.
  - destruct IHl as (m & dm & rm & Hsub & Hs & Hd); [exact I|].
    exists m, dm, rm.
    set (l := Node lv ld ll lr) in *.
    change (leftmost (Node w dw l r)) with (GoLeft :: leftmost l).
    change (_search_min (Node w dw l r)) with (_search_min l).
    change (_delete_min (Node w dw l r))
      with (l' <- _delete_min l ;; Ok (Node w dw l' r)).
    rewrite Hd. repeat split; assumption.
Qed.

Lemma subtree_stored (p : list dir) (t : tree) (v : Z) (d : nat) (l r : tree) :
  subtree p t = Node v d l r -> stored v t.
Proof.
  revert t; induction p as [|[|] p IH]; intros [|w dw tl tr]; simpl;
    try discriminate.
  - intros [= -> _ _ _]. auto.
  - intros H. right; left. eapply IH, H.
  - intros H. right; right. eapply IH, H.
Qed.

Lemma subtree_graft (p : list dir) (s t : tree) :
  is_node (subtree p t) -> subtree p (graft p s t) = s.
Proof.
  revert t; induction p as [|[|] p IH]; intros [|w dw tl tr]; simpl;
    try tauto; apply IH.
Qed.

Lemma _delete_at (p : list dir) (t : tree) (v : Z) (d : nat) (l r : tree) :
  bst t ->
  subtree p t = Node v d l r ->
  is_node l -> is_node r ->
  exists m r',
    _search_min r = Ok m /\ _delete_min r = Ok r' /\
    _delete t v = Ok (graft p (Node m d l r') t).
Proof.
  intros B Hsub Hl Hr.
  destruct (min_spec r Hr) as (m & r' & Hs & Hd & _).
  exists m, r'. split; [exact Hs|]. split; [exact Hd|].
  revert t B Hsub; induction p as [|[|] p IH]; intros [|w dw tl tr];
    cbn [subtree bst graft _delete]; try discriminate.
  - intros _ [= -> -> -> ->]. rewrite Z.eqb_refl.
    destruct l; [destruct Hl|]. destruct r; [destruct Hr|].
    rewrite Hs, Hd. reflexivity.
  - intros (Hlt & Hgt & Bl & Br) Hsub.
    pose proof (Hlt _ (subtree_stored _ _ _ _ _ _ Hsub)) as Hv.
    destruct (Z.eqb_spec v w); [lia|].
    destruct (Z.ltb_spec v w); [|lia].
    rewrite (IH _ Bl Hsub). reflexivity.
  - intros (Hlt & Hgt & Bl & Br) Hsub.
    pose proof (Hgt _ (subtree_stored _ _ _ _ _ _ Hsub)) as Hv.
    destruct (Z.eqb_spec v w); [lia|].
    destruct (Z.ltb_spec v w); [lia|].
    rewrite (IH _ Br Hsub). reflexivity.
Qed.

(** C3. In a tree that satisfies the ordering invariant, let [v] be stored
    at a node (at position [p], with depth field [d]) that has both
    children [l] and [r].  Then [delete(v)] returns, and the resulting
    tree is the old one where: the node at [p] holds [m], the value of the
    leftmost descendant of [r], which is the least value of [r]; its depth
    field is still [d] and its left child still [l]; in its right subtree
    the leftmost node has been replaced by that node's former right child
    [rm].  Nothing else changes. *)
Theorem delete_two_children
  (self : BinaryTree) (p : list dir) (v : Z) (d : nat) (l r : tree) :
  bst (root self) ->
  subtree p (root self) = Node v d l r ->
  is_node l -> is_node r ->
  exists m dm rm self',
    subtree (leftmost r) r = Node m dm Leaf rm /\
    (forall x, stored x r -> m <= x) /\
    _search_min r = Ok m /\
    _delete_min r = Ok (graft (leftmost r) rm r) /\
    delete self v = Ok self' /\
    traverse_type self' = traverse_type self /\
    root self' = graft p (Node m d l (graft (leftmost r) rm r)) (root self) /\
    subtree p (root self') = Node m d l (graft (leftmost r) rm r).
Proof.
  intros B Hsub Hl Hr.
  destruct (leftmost_spec r Hr) as (m & dm & rm & Hlm & Hs & Hd).
  destruct (_delete_at p _ v d l r B Hsub) as (m' & r' & Hs' & Hd' & Hdel); auto.
  rewrite Hs in Hs'. injection Hs' as <-.
  rewrite Hd in Hd'. injection Hd' as <-.
  exists m, dm, rm. eexists.
  split; [exact Hlm|]. split.
  { destruct (min_spec r Hr) as (m' & r' & Hs' & _ & Hst & Hb & _).
    rewrite Hs in Hs'. injection Hs' as <-.
    assert (Br : bst r).
    { clear - B Hsub. revert Hsub. generalize (root self) B. clear.
      induction p as [|[|] p IH]; intros [|w dw tl tr]; simpl;
        try discriminate.
      - intros (_ & _ & _ & Br) [= _ _ _ ->]. exact Br.
      - intros (_ & _ & Bl & _). apply IH, Bl.
      - intros (_ & _ & _ & Br). apply IH, Br. }
    destruct (Hb Br) as (_ & Hm).
    intros x Hx. apply Hst in Hx. destruct Hx as [->|Hx]; [lia|].
    specialize (Hm _ Hx). lia. }
  split; [exact Hs|]. split; [exact Hd|].
  unfold delete. rewrite Hdel. cbn [bind].
  split; [reflexivity|]. split; [reflexivity|]. split; [reflexivity|].
  cbn [root]. apply subtree_graft. rewrite Hsub. exact I.
Qed.

Lemma delete_two_children_witness :
  let self := build PRE_ORDER two_child_items in
  let l := Node 3 1 Leaf Leaf in
  let r := Node 8 1 (Node 6 2 Leaf (Node 7 3 Leaf Leaf)) (Node 9 2 Leaf Leaf) in
  bst (root self) /\
  subtree [] (root self) = Node 5 0 l r /\
  is_node l /\ is_node r /\
  exists m dm rm self',
    subtree (leftmost r) r = Node m dm Leaf rm /\
    (forall x, stored x r -> m <= x) /\
    _search_min r = Ok m /\
    _delete_min r = Ok (graft (leftmost r) rm r) /\
    delete self 5 = Ok self' /\
    traverse_type self' = traverse_type self /\
    root self' = graft [] (Node m 0 l (graft (leftmost r) rm r)) (root self) /\
    subtree [] (root self') = Node m 0 l (graft (leftmost r) rm r).
Proof.
  intros self l r.
  assert (B : bst (root self)) by (simpl; intuition lia).
  split; [exact B|]. split; [reflexivity|].
  split; [exact I|]. split; [exact I|].
  exact (delete_two_children self [] 5 0 l r B eq_refl I I).
Defined.

(** ** The node count *)

Lemma run_app (a b : list op) (self : BinaryTree) :
  run self (a ++ b) = (self' <- run self a ;; run self' b).
Proof.
  revert self; induction a as [|o a IH]; intros self; simpl.
  - reflexivity.
  - destruct (step self o) as [s1|e]; simpl; [apply IH | reflexivity].
Qed.

Lemma run_init_ops (items : list Z) (self : BinaryTree) :
  run self (init_ops items) = Ok (init_loop self items).
Proof.
  revert self; induction items as [|i items IH]; intros self; simpl.
  - reflexivity.
  - apply IH.
Qed.

Lemma step_count (self self' : BinaryTree) (o : op) :
  bst (root self) ->
  step self o = Ok self' ->
  (size (root self') + removes self o = size (root self) + adds self o)%nat.
Proof.
  intros B. destruct o as [v|v]; cbn [step adds removes].
  - intros [= <-]. cbn [insert root].
    destruct (__contains__ self v) eqn:Hc.
    + apply __contains___stored in Hc. rewrite _insert_present; auto.
    + rewrite _insert_size_absent; [lia|].
      rewrite <- __contains___stored, Hc. discriminate.
  - destruct (delete_spec self v) as (t' & -> & Hd). intros [= <-]. cbn [root].
    destruct (__contains__ self v) eqn:Hc.
    + apply __contains___stored in Hc.
      rewrite (_delete_size_present (root self) t' v B Hc Hd). lia.
    + rewrite _delete_absent in Hd.
      * injection Hd as <-. lia.
      * rewrite <- __contains___stored, Hc. discriminate.
Qed.

Lemma run_count (ops : list op) (self self' : BinaryTree) :
  bst (root self) ->
  run self ops = Ok self' ->
  (size (root self') + removals self ops = size (root self) + additions self ops)%nat.
Proof.
  revert self; induction ops as [|o ops IH]; intros self B; cbn [run additions removals].
  - intros [= <-]. lia.
  - destruct (step self o) as [s1|e] eqn:Hs; cbn [bind]; [|discriminate].
    intros Hr.
    pose proof (step_count self s1 o B Hs) as H1.
    pose proof (IH s1 (step_bst self s1 o B Hs) Hr) as H2.
    lia.
Qed.

(** C9, as amended.  After a constructor call and any sequence of inserts
    and deletes, iteration under each of the four traversal orders yields
    as many nodes as the tree has, and that number is the number of insert
    calls (the constructor's included) whose value was not in the tree at
    the time, minus the number of delete calls whose value was in the tree
    at the time. *)
Theorem node_count
  (items : list Z) (tt : TraverseType) (ops : list op) (self : BinaryTree) :
  (self0 <- __init__ (Some items) tt ;; run self0 ops) = Ok self ->
  length (__iter__ self) = size (root self) /\
  (forall tt', length (__iter__ (mkBinaryTree (root self) tt')) = size (root self)) /\
  (size (root self) + removals (empty tt) (init_ops items ++ ops) =
   additions (empty tt) (init_ops items ++ ops))%nat /\
  size (root self) =
  (additions (empty tt) (init_ops items ++ ops) -
   removals (empty tt) (init_ops items ++ ops))%nat.
Proof.
  cbn [__init__ bind]. intros Hrun.
  assert (H : run (empty tt) (init_ops items ++ ops) = Ok self).
  { rewrite run_app, run_init_ops. exact Hrun. }
  apply run_count in H; [|exact I]. cbn [empty root size] in H.
  split; [apply __iter___length|].
  split; [intros tt'; apply (__iter___length (mkBinaryTree (root self) tt'))|].
  split; lia.
Qed.

Lemma node_count_witness :
  let items := [5; 3; 3; 7] in
  let ops := [Insert 5; Delete 5; Insert 5; Delete 1; Insert 3] in
  let self := after (build LEVEL_ORDER items) ops in
  (self0 <- __init__ (Some items) LEVEL_ORDER ;; run self0 ops) = Ok self /\
  length (__iter__ self) = size (root self) /\
  (forall tt', length (__iter__ (mkBinaryTree (root self) tt')) = size (root self)) /\
  (size (root self) + removals (empty LEVEL_ORDER) (init_ops items ++ ops) =
   additions (empty LEVEL_ORDER) (init_ops items ++ ops))%nat /\
  size (root self) =
  (additions (empty LEVEL_ORDER) (init_ops items ++ ops) -
   removals (empty LEVEL_ORDER) (init_ops items ++ ops))%nat.
Proof.
  intros items ops self.
  assert (H : (self0 <- __init__ (Some items) LEVEL_ORDER ;; run self0 ops)
              = Ok self) by reflexivity.
  split; [exact H|].
  exact (node_count items LEVEL_ORDER ops self H).
Defined.

(** C9 as worded.  The count as the specification words it fails when a
    value is inserted again after it was deleted: after [insert(5);
    delete(5); insert(5)] on an empty tree there is one node, while one
    distinct value was inserted and one delete removed a present value. *)
Lemma node_count_as_worded_fails :
  let ops := [Insert 5; Delete 5; Insert 5] in
  let self := mkBinaryTree (Node 5 0 Leaf Leaf) IN_ORDER in
  (self0 <- __init__ (Some []) IN_ORDER ;; run self0 ops) = Ok self /\
  length (__iter__ self) = 1%nat /\
  distinct_inserted_minus_removed IN_ORDER (init_ops [] ++ ops) = 0%nat /\
  ~ node_count_as_worded.
Proof.
  intros ops self.
  assert (H : (self0 <- __init__ (Some []) IN_ORDER ;; run self0 ops) = Ok self)
    by reflexivity.
  split; [exact H|]. split; [reflexivity|]. split; [reflexivity|].
  intros W. specialize (W [] IN_ORDER ops self H).
  vm_compute in W. discriminate.
Qed.

(** ** Level-order traversal *)

(** What the scan does on every tree: the nodes come out in groups of
    equal depth field, each group in pre-order encounter order, the groups
    in the order in which the pre-order descent first meets their depth. *)

Lemma dict_has_In (k : nat) (d : dict) :
  dict_has k d = true <-> In k (dict_keys d).
Proof.
  induction d as [|[k' v'] d IH]; simpl.
  - split; [discriminate | tauto].
  - destruct (Nat.eqb_spec k' k) as [->|Hne]; [tauto|].
    rewrite IH. intuition.
Qed.

Lemma dict_keys_append (k : nat) (n : tree) (d : dict) :
  dict_keys (dict_append k n d) = dict_keys d.
Proof.
  induction d as [|[k' v'] d IH]; simpl; [reflexivity|].
  destruct (Nat.eqb k' k); simpl; congruence.
Qed.

Lemma dict_get_append (k k' : nat) (n : tree) (d : dict) :
  dict_has k d = true ->
  dict_get k' (dict_append k n d) =
  dict_get k' d ++ (if Nat.eqb k k' then [n] else []).
Proof.
  induction d as [|[k0 v0] d IH]; simpl; [discriminate|].
  destruct (Nat.eqb_spec k0 k) as [->|Hne]; simpl; intros H.
  - destruct (Nat.eqb k k'); [reflexivity | rewrite app_nil_r; reflexivity].
  - destruct (Nat.eqb_spec k0 k') as [->|Hne']; [|auto].
    destruct (Nat.eqb_spec k k') as [->|_]; [contradiction|].
    rewrite app_nil_r; reflexivity.
Qed.

Lemma dict_get_set_fresh (k k' : nat) (v : list tree) (d : dict) :
  dict_has k d = false ->
  dict_get k' (dict_set k v d) =
  dict_get k' d ++ (if Nat.eqb k k' then v else []).
Proof.
  induction d as [|[k0 v0] d IH]; simpl.
  - intros _. destruct (Nat.eqb k k'); reflexivity.
  - destruct (Nat.eqb_spec k0 k) as [->|Hne]; simpl; [discriminate|]. intros H.
    destruct (Nat.eqb_spec k0 k') as [->|Hne']; [|auto].
    destruct (Nat.eqb_spec k k') as [->|_]; [contradiction|].
    rewrite app_nil_r; reflexivity.
Qed.

Lemma _level_fill_get (t : tree) (acc : dict) (k : nat) :
  dict_get k (_level_fill t acc) =
  dict_get k acc ++ filter (has_depth k) (_pre_order t).
Proof.
  revert acc; induction t as [|v d l IHl r IHr]; intros acc.
  - simpl. rewrite app_nil_r. reflexivity.
  - cbn [_level_fill _pre_order filter].
    rewrite IHr, IHl, filter_app.
    change (has_depth k (Node v d l r)) with (Nat.eqb d k).
    destruct (dict_has d acc) eqn:Hh; cbn [negb].
    + rewrite dict_get_append by exact Hh.
      destruct (Nat.eqb d k); simpl; rewrite <- !app_assoc; reflexivity.
    + rewrite dict_get_set_fresh by exact Hh.
      destruct (Nat.eqb d k); simpl; rewrite <- !app_assoc; reflexivity.
Qed.

Lemma _level_fill_keys (t : tree) (acc : dict) :
  NoDup (dict_keys acc) ->
  NoDup (dict_keys (_level_fill t acc)) /\
  forall k, In k (dict_keys (_level_fill t acc)) <->
            In k (dict_keys acc) \/
            exists n, In n (_pre_order t) /\ has_depth k n = true.
Proof.
  revert acc; induction t as [|v d l IHl r IHr]; intros acc ND.
  - simpl. split; [exact ND|]. intros k. split; [auto|].
    intros [H|(n & [] & _)]; exact H.
  - cbn [_level_fill _pre_order].
    set (acc1 := if negb (dict_has d acc)
                 then dict_set d [Node v d l r] acc
                 else dict_append d (Node v d l r) acc).
    assert (H1 : NoDup (dict_keys acc1) /\
                 forall k, In k (dict_keys acc1) <-> In k (dict_keys acc) \/ d = k).
    { subst acc1. destruct (dict_has d acc) eqn:Hh; cbn [negb].
      - rewrite dict_keys_append. split; [exact ND|].
        intros k. split; [auto|]. intros [H|<-]; [exact H|].
        apply dict_has_In, Hh.
      - rewrite dict_set_fresh by exact Hh.
        unfold dict_keys. rewrite map_app. simpl. split.
        + apply NoDup_app; [exact ND | repeat constructor; simpl; tauto |].
          intros k Hk [<-|[]]. apply dict_has_In in Hk. congruence.
        + intros k. rewrite in_app_iff. simpl. tauto. }
    destruct H1 as (ND1 & K1).
    destruct (IHl acc1 ND1) as (ND2 & K2).
    destruct (IHr _ ND2) as (ND3 & K3).
    split; [exact ND3|].
    intros k. rewrite K3, K2, K1. split.
    + intros [[[H|<-]|(n & Hn & Hd)]|(n & Hn & Hd)]; auto; right.
      * exists (Node v d l r). simpl. rewrite Nat.eqb_refl. auto.
      * exists n. split; [right; apply in_or_app; auto | exact Hd].
      * exists n. split; [right; apply in_or_app; auto | exact Hd].
    + intros [H|(n & [<-|Hn] & Hd)]; auto.
      * simpl in Hd. apply Nat.eqb_eq in Hd. auto.
      * apply in_app_or in Hn. destruct Hn as [Hn|Hn]; eauto 6.
Qed.

Lemma dict_values_by_keys (d : dict) :
  NoDup (dict_keys d) ->
  dict_values d = map (fun k => dict_get k d) (dict_keys d).
Proof.
  unfold dict_values, dict_keys.
  induction d as [|[k v] d IH]; simpl; [reflexivity|].
  intros ND. inversion ND as [|? ? Hk ND']; subst.
  rewrite Nat.eqb_refl. f_equal. rewrite IH by exact ND'.
  apply map_ext_in. intros k' Hk'.
  destruct (Nat.eqb_spec k k') as [->|_]; [contradiction | reflexivity].
Qed.

(** The scan on any tree: groups of equal depth field, pre-order inside
    each group, one group per depth field that occurs. *)
Lemma _level_order_groups (t : tree) :
  let keys := dict_keys (_level_fill t []) in
  NoDup keys /\
  (forall k, In k keys <-> exists n, In n (_pre_order t) /\ has_depth k n = true) /\
  _level_order t = flat_map (fun k => filter (has_depth k) (_pre_order t)) keys.
Proof.
  intros keys. subst keys.
  destruct (_level_fill_keys t [] (NoDup_nil _)) as (ND & K).
  split; [exact ND|]. split.
  - intros k. rewrite (K k). simpl. tauto.
  - unfold _level_order. rewrite dict_values_by_keys by exact ND.
    rewrite flat_map_concat_map. f_equal.
    apply map_ext. intros k. apply _level_fill_get.
Qed.

(** While no [delete] has run, the depth fields are the true levels and
    the groups come out in increasing depth order. *)

Lemma _insert_depth_ok (t : tree) (v : Z) (k : nat) :
  depth_ok k t -> depth_ok k (_insert t v k).
Proof.
  revert k; induction t as [|w dw l IHl r IHr]; intros k; simpl.
  - tauto.
  - intros (-> & Dl & Dr).
    destruct (v =? w); [simpl; tauto|].
    destruct (v <? w); simpl; auto.
Qed.

Lemma build_depth_ok (tt : TraverseType) (items : list Z) :
  depth_ok 0 (root (build tt items)).
Proof.
  unfold build. assert (H : depth_ok 0 (root (empty tt))) by exact I.
  revert H. generalize (empty tt).
  induction items as [|i items IH]; intros self H; simpl; [exact H|].
  apply IH. simpl. apply _insert_depth_ok, H.
Qed.

Lemma _level_fill_keys_seq (t : tree) (acc : dict) (k n : nat) :
  depth_ok k t -> (k <= n)%nat -> dict_keys acc = seq 0 n ->
  dict_keys (_level_fill t acc) = seq 0 (Nat.max n (k + height t)).
Proof.
  revert acc k n; induction t as [|v d l IHl r IHr]; intros acc k n.
  - simpl. intros _ Hk ->. f_equal. lia.
  - cbn [_level_fill depth_ok height]. intros (-> & Dl & Dr) Hk Hacc.
    set (acc1 := if negb (dict_has k acc)
                 then dict_set k [Node v k l r] acc
                 else dict_append k (Node v k l r) acc).
    assert (H1 : dict_keys acc1 = seq 0 (Nat.max n (S k))).
    { subst acc1. destruct (dict_has k acc) eqn:Hh; cbn [negb].
      - rewrite dict_keys_append, Hacc.
        apply dict_has_In in Hh. rewrite Hacc in Hh. apply in_seq in Hh.
        f_equal. lia.
      - rewrite dict_set_fresh by exact Hh.
        assert (k = n).
        { destruct (Nat.eq_dec k n) as [E|E]; [exact E|].
          assert (Hin : In k (dict_keys acc)) by (rewrite Hacc; apply in_seq; lia).
          apply dict_has_In in Hin. congruence. }
        subst k. unfold dict_keys in *. rewrite map_app, Hacc. simpl.
        replace (Nat.max n (S n)) with (S n) by lia.
        rewrite seq_S. reflexivity. }
    rewrite (IHr _ (S k) (Nat.max (Nat.max n (S k)) (S k + height l))); try lia; auto.
    + f_equal. lia.
    + apply IHl; auto. lia.
Qed.

Lemma _level_order_increasing (t : tree) :
  depth_ok 0 t ->
  _level_order t =
  flat_map (fun k => filter (has_depth k) (_pre_order t)) (seq 0 (height t)).
Proof.
  intros D.
  destruct (_level_order_groups t) as (_ & _ & ->).
  rewrite (_level_fill_keys_seq t [] 0 0 D); auto.
Qed.

(** C6, at a tree that [delete] has reshaped.  After
    [BinaryTree([5, 3, 8, 2, 9], LEVEL_ORDER)] and [delete(3)] the node 2
    (depth field 2) is the left child of the root and 8 (depth field 1)
    the right child, with 9 (depth field 2) below 8.  Level-order
    iteration yields 5, 2, 9, 8: the group of depth 2 comes before the
    group of depth 1, and the node 9 before its parent 8. *)
Theorem level_order_after_delete :
  exists self,
    (self0 <- __init__ (Some small_items) LEVEL_ORDER ;; delete self0 3) = Ok self /\
    root self =
      Node 5 0 (Node 2 2 Leaf Leaf) (Node 8 1 Leaf (Node 9 2 Leaf Leaf)) /\
    values_of (__iter__ self) = [5; 2; 9; 8] /\
    map depth_of (__iter__ self) = [Some 0; Some 2; Some 2; Some 1]%nat /\
    values_of (_pre_order (root self)) = [5; 2; 8; 9].
Proof.
  eexists. split; [reflexivity|]. repeat split.
Qed.

(** * Further properties of the code *)

(** ** What insert and delete do to the rest of the tree *)

Lemma _insert_absent_graft (t : tree) (v : Z) (k : nat) :
  ~ stored v t ->
  exists p,
    subtree p t = Leaf /\
    subtree p (_insert t v k) = Node v (k + length p) Leaf Leaf /\
    _insert t v k = graft p (Node v (k + length p) Leaf Leaf) t.
Proof.
  revert k; induction t as [|w dw l IHl r IHr]; intros k Hv.
  - exists []. simpl. rewrite Nat.add_0_r. auto.
  - cbn [stored] in Hv. cbn [_insert].
    destruct (Z.eqb_spec v w) as [->|Hne]; [tauto|].
    destruct (v <? w).
    + destruct (IHl (S k)) as (p & H1 & H2 & H3); [tauto|].
      exists (GoLeft :: p). cbn [subtree graft length].
      rewrite Nat.add_succ_r. cbn [Nat.add] in *. rewrite <- H3. auto.
    + destruct (IHr (S k)) as (p & H1 & H2 & H3); [tauto|].
      exists (GoRight :: p). cbn [subtree graft length].
      rewrite Nat.add_succ_r. cbn [Nat.add] in *. rewrite <- H3. auto.
Qed.

Lemma not_contains_not_stored (self : BinaryTree) (v : Z) :
  __contains__ self v = false -> ~ stored v (root self).
Proof.
  intros Hc Hs. apply __contains___stored in Hs. congruence.
Qed.

(** X1. Inserting a value that is not in the tree adds exactly one node:
    a leaf, hung where the tree had no child, whose depth field is the
    number of links between it and the root.  Every other node keeps its
    place, its value and its depth field. *)
Theorem insert_absent_adds_leaf (self : BinaryTree) (v : Z) :
  __contains__ self v = false ->
  exists p,
    subtree p (root self) = Leaf /\
    subtree p (root (insert self v)) = Node v (length p) Leaf Leaf /\
    root (insert self v) = graft p (Node v (length p) Leaf Leaf) (root self) /\
    traverse_type (insert self v) = traverse_type self /\
    size (root (insert self v)) = S (size (root self)).
Proof.
  intros Hc. apply not_contains_not_stored in Hc.
  destruct (_insert_absent_graft (root self) v 0 Hc) as (p & H1 & H2 & H3).
  exists p. cbn [insert root traverse_type Nat.add] in *.
  repeat split; auto. apply _insert_size_absent, Hc.
Qed.

Lemma insert_absent_adds_leaf_witness :
  let self := build IN_ORDER small_items in
  __contains__ self 4 = false /\
  exists p,
    subtree p (root self) = Leaf /\
    subtree p (root (insert self 4)) = Node 4 (length p) Leaf Leaf /\
    root (insert self 4) = graft p (Node 4 (length p) Leaf Leaf) (root self) /\
    traverse_type (insert self 4) = traverse_type self /\
    size (root (insert self 4)) = S (size (root self)).
Proof.
  intros self.
  assert (Hc : __contains__ self 4 = false) by reflexivity.
  split; [exact Hc|].
  exact (insert_absent_adds_leaf self 4 Hc).
Defined.

(** X2. [insert(v)] changes the membership of [v] only: for every tree,
    every traversal order and every [x], [x in tree] after the call is
    true exactly when [x] is [v] or [x] was in the tree before. *)
Theorem contains_after_insert (self : BinaryTree) (v x : Z) :
  __contains__ (insert self v) x = (x =? v) || __contains__ self x.
Proof.
  apply eq_true_iff_eq.
  rewrite orb_true_iff, Z.eqb_eq, !__contains___stored.
  apply _insert_stored.
Qed.

(** X3. In every reachable state [delete(v)] returns and changes the
    membership of [v] only: afterwards [x in tree] is true exactly when
    [x] is not [v] and [x] was in the tree before. *)
Theorem contains_after_delete (self : BinaryTree) (v : Z) :
  reachable self ->
  exists self',
    delete self v = Ok self' /\
    forall x, __contains__ self' x = negb (x =? v) && __contains__ self x.
Proof.
  intros Hr. destruct (delete_spec self v) as (t' & Hd & Hd').
  eexists. split; [exact Hd|]. intros x.
  destruct (_delete_spec (root self) v) as (t'' & Hd'' & _ & Hb).
  rewrite Hd' in Hd''. injection Hd'' as <-.
  destruct (Hb (reachable_bst self Hr)) as (_ & Hst).
  apply eq_true_iff_eq.
  rewrite andb_true_iff, negb_true_iff, Z.eqb_neq, !__contains___stored.
  cbn [root]. rewrite Hst. tauto.
Qed.

Lemma contains_after_delete_witness :
  let self := build POST_ORDER demo_items in
  reachable self /\
  exists self',
    delete self 9 = Ok self' /\
    forall x, __contains__ self' x = negb (x =? 9) && __contains__ self x.
Proof.
  intros self.
  assert (Hr : reachable self).
  { exists demo_items, POST_ORDER, []. reflexivity. }
  split; [exact Hr|].
  exact (contains_after_delete self 9 Hr).
Defined.

Lemma _insert_delete_restores (t : tree) (v : Z) (k : nat) :
  ~ stored v t -> _delete (_insert t v k) v = Ok t.
Proof.
  revert k; induction t as [|w dw l IHl r IHr]; intros k Hv.
  - cbn [_insert _delete]. rewrite Z.eqb_refl. reflexivity.
  - cbn [stored] in Hv. cbn [_insert].
    destruct (v =? w) eqn:E; [apply Z.eqb_eq in E; tauto|].
    destruct (v <? w) eqn:E'; cbn [_delete]; rewrite E, E'.
    + rewrite IHl by tauto. reflexivity.
    + rewrite IHr by tauto. reflexivity.
Qed.

(** X4. Inserting a value that is not in the tree and deleting it at once
    gives back the very same tree: same shape, same values, same depth
    fields. *)
Theorem insert_then_delete_restores (self : BinaryTree) (v : Z) :
  __contains__ self v = false ->
  delete (insert self v) v = Ok self.
Proof.
  intros Hc. apply not_contains_not_stored in Hc.
  unfold delete. cbn [insert root traverse_type].
  rewrite _insert_delete_restores by exact Hc.
  destruct self; reflexivity.
Qed.

Lemma insert_then_delete_restores_witness :
  let self := build LEVEL_ORDER demo_items in
  __contains__ self 25 = false /\ delete (insert self 25) 25 = Ok self.
Proof.
  intros self.
  assert (Hc : __contains__ self 25 = false) by reflexivity.
  split; [exact Hc|].
  exact (insert_then_delete_restores self 25 Hc).
Defined.

Lemma _delete_at_single (p : list dir) (t : tree) (v : Z) (d : nat) (l r : tree) :
  bst t ->
  subtree p t = Node v d l r ->
  l = Leaf \/ r = Leaf ->
  _delete t v = Ok (graft p (match l with Leaf => r | Node _ _ _ _ => l end) t).
Proof.
  intros B Hsub Hone.
  revert t B Hsub; induction p as [|[|] p IH]; intros [|w dw tl tr];
    cbn [subtree bst graft _delete]; try discriminate.
  - intros _ [= -> -> -> ->]. rewrite Z.eqb_refl.
    destruct l; [reflexivity|].
    destruct Hone as [Hone|Hone]; [discriminate|]. subst r. reflexivity.
  - intros (Hlt & Hgt & Bl & Br) Hsub.
    pose proof (Hlt _ (subtree_stored _ _ _ _ _ _ Hsub)) as Hv.
    destruct (Z.eqb_spec v w); [lia|].
    destruct (Z.ltb_spec v w); [|lia].
    rewrite (IH _ Bl Hsub). reflexivity.
  - intros (Hlt & Hgt & Bl & Br) Hsub.
    pose proof (Hgt _ (subtree_stored _ _ _ _ _ _ Hsub)) as Hv.
    destruct (Z.eqb_spec v w); [lia|].
    destruct (Z.ltb_spec v w); [lia|].
    rewrite (IH _ Br Hsub). reflexivity.
Qed.

(** X5. In a tree that satisfies the ordering invariant, deleting the
    value of a node that lacks a child puts the other child (or nothing,
    for a leaf) in the node's place.  The child moves up one level with
    its whole subtree and keeps its depth field, which from then on is
    one more than its true level. *)
Theorem delete_at_most_one_child
  (self : BinaryTree) (p : list dir) (v : Z) (d : nat) (l r : tree) :
  bst (root self) ->
  subtree p (root self) = Node v d l r ->
  l = Leaf \/ r = Leaf ->
  delete self v =
  Ok (mkBinaryTree
        (graft p (match l with Leaf => r | Node _ _ _ _ => l end) (root self))
        (traverse_type self)).
Proof.
  intros B Hsub Hone. unfold delete.
  rewrite (_delete_at_single p (root self) v d l r B Hsub Hone). reflexivity.
Qed.

Lemma delete_at_most_one_child_witness :
  let self := build LEVEL_ORDER small_items in
  bst (root self) /\
  subtree [GoLeft] (root self) = Node 3 1 (Node 2 2 Leaf Leaf) Leaf /\
  (Node 2 2 Leaf Leaf = Leaf \/ Leaf = Leaf) /\
  delete self 3 =
  Ok (mkBinaryTree
        (Node 5 0 (Node 2 2 Leaf Leaf) (Node 8 1 Leaf (Node 9 2 Leaf Leaf)))
        LEVEL_ORDER).
Proof.
  intros self.
  assert (B : bst (root self)) by (simpl; intuition lia).
  split; [exact B|]. split; [reflexivity|]. split; [right; reflexivity|].
  exact (delete_at_most_one_child self [GoLeft] 3 1 (Node 2 2 Leaf Leaf) Leaf
           B eq_refl (or_intror eq_refl)).
Defined.

Lemma _delete_size_le (t t' : tree) (v : Z) :
  _delete t v = Ok t' -> (size t' <= size t)%nat.
Proof.
  revert t'; induction t as [|w dw l IHl r IHr]; intros t'; cbn [_delete].
  - intros [= <-]. auto.
  - destruct (v =? w).
    + destruct l as [|lv ld ll lr].
      { intros [= <-]. cbn [size]. lia. }
      destruct r as [|rv rd rl rr].
      { intros [= <-]. cbn [size]. lia. }
      destruct (min_spec (Node rv rd rl rr) I) as (m & r' & Hs & Hd & _ & _ & Hsz).
      rewrite Hs, Hd. cbn [bind]. intros [= <-].
      change (size (Node w dw (Node lv ld ll lr) (Node rv rd rl rr)))
        with (S (size (Node lv ld ll lr) + size (Node rv rd rl rr))).
      rewrite Hsz. cbn [size]. lia.
    + destruct (v <? w).
      * destruct (_delete l v) as [l'|e]; cbn [bind]; [|discriminate].
        intros [= <-]. cbn [size]. specialize (IHl l' eq_refl). lia.
      * destruct (_delete r v) as [r'|e]; cbn [bind]; [|discriminate].
        intros [= <-]. cbn [size]. specialize (IHr r' eq_refl). lia.
Qed.

(** X6. [delete] never raises, on any tree whatever (ordered or not): the
    two helpers that would fail on [None] are only called on a child that
    exists.  The call keeps the traversal order, never adds a value and
    never adds a node. *)
Theorem delete_never_raises (self : BinaryTree) (v : Z) :
  exists self',
    delete self v = Ok self' /\
    traverse_type self' = traverse_type self /\
    (forall x, __contains__ self' x = true -> __contains__ self x = true) /\
    (length (__iter__ self') <= length (__iter__ self))%nat.
Proof.
  destruct (delete_spec self v) as (t' & Hd & Hd').
  eexists. split; [exact Hd|]. split; [reflexivity|]. split.
  - intros x. rewrite !__contains___stored. cbn [root].
    destruct (_delete_spec (root self) v) as (t'' & Hd'' & Hsub & _).
    rewrite Hd' in Hd''. injection Hd'' as <-. apply Hsub.
  - rewrite !__iter___length. cbn [root]. eapply _delete_size_le, Hd'.
Qed.

(** ** The tree as a finite set *)

Lemma step_stored (self self' : BinaryTree) (o : op) (S : list Z) :
  bst (root self) ->
  (forall x, stored x (root self) <-> In x S) ->
  step self o = Ok self' ->
  forall x, stored x (root self') <-> In x (model S [o]).
Proof.
  intros B HS. destruct o as [v|v]; cbn [step model].
  - intros [= <-] x. cbn [insert root]. rewrite _insert_stored, HS.
    simpl. intuition congruence.
  - destruct (delete_spec self v) as (t' & -> & Hd). intros [= <-] x. cbn [root].
    destruct (_delete_spec (root self) v) as (t'' & Hd'' & _ & Hb).
    rewrite Hd in Hd''. injection Hd'' as <-.
    destruct (Hb B) as (_ & Hst). rewrite Hst, HS. split.
    + intros [Hx Hn]. apply in_in_remove; auto.
    + intros Hx. apply in_remove in Hx. exact Hx.
Qed.

Lemma run_stored (ops : list op) (self self' : BinaryTree) (S : list Z) :
  bst (root self) ->
  (forall x, stored x (root self) <-> In x S) ->
  run self ops = Ok self' ->
  forall x, stored x (root self') <-> In x (model S ops).
Proof.
  revert self S; induction ops as [|o ops IH]; intros self S B HS; cbn [run].
  - intros [= <-]. exact HS.
  - destruct (step self o) as [s1|e] eqn:Hs; cbn [bind]; [|discriminate].
    intros Hr.
    pose proof (step_stored self s1 o S B HS Hs) as H1.
    pose proof (IH s1 (model S [o]) (step_bst self s1 o B Hs) H1 Hr) as H2.
    destruct o; exact H2.
Qed.

(** X7. The tree behaves as a finite set of integers.  After a
    constructor call and any sequence of inserts and deletes, [x in tree]
    is true exactly for the members of the set obtained by adding the
    value at each insert (the constructor's included) and removing it at
    each delete. *)
Theorem behaves_as_set
  (items : list Z) (tt : TraverseType) (ops : list op) (self : BinaryTree) :
  (self0 <- __init__ (Some items) tt ;; run self0 ops) = Ok self ->
  forall x,
    __contains__ self x = true <-> In x (model [] (init_ops items ++ ops)).
Proof.
  cbn [__init__ bind]. intros Hrun x.
  assert (H : run (empty tt) (init_ops items ++ ops) = Ok self).
  { rewrite run_app, run_init_ops. exact Hrun. }
  rewrite __contains___stored.
  apply (run_stored _ (empty tt) self []); auto.
  - exact I.
  - intros y. simpl. tauto.
Qed.

Lemma behaves_as_set_witness :
  let items := [5; 3; 3; 7] in
  let ops := [Delete 3; Insert 4; Delete 8; Insert 3; Delete 5] in
  let self := after (build PRE_ORDER items) ops in
  (self0 <- __init__ (Some items) PRE_ORDER ;; run self0 ops) = Ok self /\
  forall x,
    __contains__ self x = true <-> In x (model [] (init_ops items ++ ops)).
Proof.
  intros items ops self.
  assert (H : (self0 <- __init__ (Some items) PRE_ORDER ;; run self0 ops) = Ok self)
    by reflexivity.
  split; [exact H|].
  exact (behaves_as_set items PRE_ORDER ops self H).
Defined.

Lemma init_loop_stored (items : list Z) (self : BinaryTree) (x : Z) :
  stored x (root (init_loop self items)) <-> In x items \/ stored x (root self).
Proof.
  revert self; induction items as [|i items IH]; intros self; cbn [init_loop].
  - simpl. tauto.
  - rewrite IH. cbn [insert root]. rewrite _insert_stored. simpl.
    intuition congruence.
Qed.

Lemma StronglySorted_lt_NoDup (a : list Z) :
  StronglySorted Z.lt a -> NoDup a.
Proof.
  induction 1 as [|x a _ IH Hx]; constructor; auto.
  intros Hin. rewrite Forall_forall in Hx. specialize (Hx _ Hin). lia.
Qed.

Lemma StronglySorted_lt_ext (a b : list Z) :
  StronglySorted Z.lt a -> StronglySorted Z.lt b ->
  (forall x, In x a <-> In x b) -> a = b.
Proof.
  intros Sa. revert b.
  induction Sa as [|x a Sa IH Hx]; intros b Sb Hab.
  - destruct b as [|y b]; [reflexivity|].
    exfalso. apply (proj2 (Hab y)). simpl. auto.
  - destruct Sb as [|y b Sb Hy].
    { exfalso. apply (proj1 (Hab x)). simpl. auto. }
    rewrite Forall_forall in Hx, Hy.
    assert (x = y).
    { destruct (proj1 (Hab x) (or_introl eq_refl)) as [E|Hin]; [auto|].
      destruct (proj2 (Hab y) (or_introl eq_refl)) as [E|Hin']; [auto|].
      specialize (Hx _ Hin'). specialize (Hy _ Hin). lia. }
    subst y. f_equal. apply IH; [exact Sb|].
    intros z. split; intros Hz.
    + destruct (proj1 (Hab z) (or_intror Hz)) as [E|Hin]; [|exact Hin].
      subst z. specialize (Hx _ Hz). lia.
    + destruct (proj2 (Hab z) (or_intror Hz)) as [E|Hin]; [|exact Hin].
      subst z. specialize (Hy _ Hz). lia.
Qed.

(** X8. Building a tree and walking it in order sorts the input and drops
    its duplicates: for every initial sequence, the in-order values of
    [BinaryTree(items)] are strictly ascending, are exactly the values of
    [items], and are as many as [items] has distinct values. *)
Theorem build_in_order_sorts (tt : TraverseType) (items : list Z) :
  let sorted := values_of (_in_order (root (build tt items))) in
  __init__ (Some items) tt = Ok (build tt items) /\
  StronglySorted Z.lt sorted /\
  (forall x, In x sorted <-> In x items) /\
  length sorted = length (nodup Z.eq_dec items).
Proof.
  intros sorted. subst sorted.
  assert (B : bst (root (build tt items))) by (apply init_loop_bst; exact I).
  assert (E : forall x, In x (values_of (_in_order (root (build tt items))))
                        <-> In x items).
  { intros x. rewrite _in_order_stored. unfold build.
    rewrite init_loop_stored. simpl. tauto. }
  split; [reflexivity|]. split; [apply _in_order_sorted, B|]. split; [exact E|].
  apply Permutation_length, NoDup_Permutation.
  - apply StronglySorted_lt_NoDup, _in_order_sorted, B.
  - apply NoDup_nodup.
  - intros x. rewrite E, nodup_In. tauto.
Qed.

(** X9. The in-order values do not depend on the insertion order: two
    initial sequences with the same values, in any order and with any
    repetitions, give trees with the same in-order values (their shapes
    may differ). *)
Theorem in_order_insertion_order_irrelevant
  (tt tt' : TraverseType) (items items' : list Z) :
  (forall x, In x items <-> In x items') ->
  values_of (_in_order (root (build tt items))) =
  values_of (_in_order (root (build tt' items'))).
Proof.
  intros H.
  apply StronglySorted_lt_ext.
  - apply _in_order_sorted, init_loop_bst. exact I.
  - apply _in_order_sorted, init_loop_bst. exact I.
  - intros x. rewrite !_in_order_stored. unfold build.
    rewrite !init_loop_stored. simpl. rewrite (H x). tauto.
Qed.

Lemma in_order_insertion_order_irrelevant_witness :
  (forall x, In x [5; 3; 3; 7] <-> In x [7; 5; 3]) /\
  root (build IN_ORDER [5; 3; 3; 7]) <> root (build IN_ORDER [7; 5; 3]) /\
  values_of (_in_order (root (build IN_ORDER [5; 3; 3; 7]))) =
  values_of (_in_order (root (build IN_ORDER [7; 5; 3]))).
Proof.
  assert (H : forall x, In x [5; 3; 3; 7] <-> In x [7; 5; 3])
    by (intros x; simpl; intuition).
  split; [exact H|]. split; [discriminate|].
  exact (in_order_insertion_order_irrelevant IN_ORDER IN_ORDER _ _ H).
Defined.

(** X10. Deleting twice is deleting once: in a reachable state, after
    [delete(v)] a second [delete(v)] returns the tree unchanged. *)
Theorem delete_idempotent (self self' : BinaryTree) (v : Z) :
  reachable self ->
  delete self v = Ok self' ->
  delete self' v = Ok self'.
Proof.
  intros Hr Hd.
  destruct (delete_spec self v) as (t' & Hd1 & Hd').
  rewrite Hd in Hd1. injection Hd1 as ->.
  destruct (_delete_spec (root self) v) as (t'' & Hd'' & _ & Hb).
  rewrite Hd' in Hd''. injection Hd'' as <-.
  destruct (Hb (reachable_bst self Hr)) as (_ & Hst).
  unfold delete. cbn [root traverse_type].
  rewrite _delete_absent; [reflexivity|].
  rewrite Hst. tauto.
Qed.

Lemma delete_idempotent_witness :
  let self := build IN_ORDER demo_items in
  let self' := after self [Delete 22] in
  reachable self /\ delete self 22 = Ok self' /\ delete self' 22 = Ok self'.
Proof.
  intros self self'.
  assert (Hr : reachable self).
  { exists demo_items, IN_ORDER, []. reflexivity. }
  assert (Hd : delete self 22 = Ok self') by reflexivity.
  split; [exact Hr|]. split; [exact Hd|].
  exact (delete_idempotent self self' 22 Hr Hd).
Defined.

Lemma init_loop_app (a b : list Z) (self : BinaryTree) :
  init_loop self (a ++ b) = init_loop (init_loop self a) b.
Proof.
  revert self; induction a as [|i a IH]; intros self; simpl; auto.
Qed.


(** ** Depth fields *)

Lemma depth_ge_mono (t : tree) (k : nat) :
  depth_ge (S k) t -> depth_ge k t.
Proof.
  revert k; induction t as [|w dw l IHl r IHr]; intros k; simpl; [tauto|].
  intros (H & Dl & Dr). repeat split; auto. lia.
Qed.

Lemma _insert_depth_ge (t : tree) (v : Z) (k : nat) :
  depth_ge k t -> depth_ge k (_insert t v k).
Proof.
  revert k; induction t as [|w dw l IHl r IHr]; intros k; simpl.
  - auto.
  - intros (H & Dl & Dr).
    destruct (v =? w); [simpl; tauto|].
    destruct (v <? w); simpl; auto.
Qed.

Lemma _delete_min_depth_ge (t t' : tree) (k : nat) :
  depth_ge k t -> _delete_min t = Ok t' -> depth_ge k t'.
Proof.
  revert t' k; induction t as [|w dw l IHl r _]; intros t' k; [discriminate|].
  intros (H & Dl & Dr). cbn [_delete_min].
  destruct l as [|lv ld ll lr].
  - intros [= <-]. apply depth_ge_mono, Dr.
  - destruct (_delete_min (Node lv ld ll lr)) as [l'|e] eqn:Hd;
      cbn [bind]; [|discriminate].
    intros [= <-]. cbn [depth_ge].
    split; [exact H|]. split; [|exact Dr].
    apply (IHl l' (S k) Dl eq_refl).
Qed.

Lemma _delete_depth_ge (t t' : tree) (v : Z) (k : nat) :
  depth_ge k t -> _delete t v = Ok t' -> depth_ge k t'.
Proof.
  revert t' k; induction t as [|w dw l IHl r IHr]; intros t' k D;
    cbn [_delete].
  - intros [= <-]. exact D.
  - destruct D as (H & Dl & Dr).
    destruct (v =? w).
    + destruct l as [|lv ld ll lr].
      { intros [= <-]. apply depth_ge_mono, Dr. }
      destruct r as [|rv rd rl rr].
      { intros [= <-]. apply depth_ge_mono, Dl. }
      destruct (_search_min (Node rv rd rl rr)) as [m|e]; cbn [bind];
        [|discriminate].
      destruct (_delete_min (Node rv rd rl rr)) as [r'|e] eqn:Hd;
        cbn [bind]; [|discriminate].
      intros [= <-].
      change (depth_ge k (Node m dw (Node lv ld ll lr) r'))
        with ((k <= dw)%nat /\ depth_ge (S k) (Node lv ld ll lr) /\
              depth_ge (S k) r').
      split; [exact H|]. split; [exact Dl|].
      eapply _delete_min_depth_ge; eauto.
    + destruct (v <? w).
      * destruct (_delete l v) as [l'|e] eqn:Hd; cbn [bind]; [|discriminate].
        intros [= <-]. cbn [depth_ge].
        split; [exact H|]. split; [|exact Dr].
        apply (IHl l' (S k) Dl eq_refl).
      * destruct (_delete r v) as [r'|e] eqn:Hd; cbn [bind]; [|discriminate].
        intros [= <-]. cbn [depth_ge].
        split; [exact H|]. split; [exact Dl|].
        apply (IHr r' (S k) Dr eq_refl).
Qed.

Lemma depth_ge_subtree (p : list dir) (t : tree) (k : nat) (v : Z) (d : nat) (l r : tree) :
  depth_ge k t -> subtree p t = Node v d l r -> (k + length p <= d)%nat.
Proof.
  revert t k; induction p as [|[|] p IH]; intros [|w dw tl tr] k; simpl;
    try discriminate.
  - intros (H & _) [= _ <- _ _]. lia.
  - intros (_ & Dl & _) Hs. specialize (IH _ _ Dl Hs). lia.
  - intros (_ & _ & Dr) Hs. specialize (IH _ _ Dr Hs). lia.
Qed.

Lemma depth_ok_subtree (p : list dir) (t : tree) (k : nat) (v : Z) (d : nat) (l r : tree) :
  depth_ok k t -> subtree p t = Node v d l r -> d = (k + length p)%nat.
Proof.
  revert t k; induction p as [|[|] p IH]; intros [|w dw tl tr] k; simpl;
    try discriminate.
  - intros (H & _) [= _ <- _ _]. lia.
  - intros (_ & Dl & _) Hs. specialize (IH _ _ Dl Hs). lia.
  - intros (_ & _ & Dr) Hs. specialize (IH _ _ Dr Hs). lia.
Qed.

Lemma init_loop_depth_ge (items : list Z) (self : BinaryTree) :
  depth_ge 0 (root self) -> depth_ge 0 (root (init_loop self items)).
Proof.
  revert self; induction items as [|i items IH]; intros self D; simpl; [exact D|].
  apply IH. simpl. apply _insert_depth_ge, D.
Qed.

Lemma run_depth_ge (ops : list op) (self self' : BinaryTree) :
  depth_ge 0 (root self) -> run self ops = Ok self' -> depth_ge 0 (root self').
Proof.
  revert self; induction ops as [|o ops IH]; intros self D; cbn [run].
  - intros [= <-]. exact D.
  - destruct (step self o) as [s1|e] eqn:Hst; cbn [bind]; [|discriminate].
    apply IH.
    destruct o as [x|x]; cbn [step] in Hst.
    + injection Hst as <-. simpl. apply _insert_depth_ge, D.
    + destruct (delete_spec self x) as (t' & Hd & Hd').
      rewrite Hst in Hd. injection Hd as ->. simpl.
      eapply _delete_depth_ge; eauto.
Qed.

(** X12. In every reachable state, the depth field of a node is never
    smaller than the number of links between the node and the root:
    [delete] can leave a depth field too large, nothing makes one too
    small. *)
Theorem depth_never_below_level
  (self : BinaryTree) (p : list dir) (v : Z) (d : nat) (l r : tree) :
  reachable self ->
  subtree p (root self) = Node v d l r ->
  (length p <= d)%nat.
Proof.
  intros (items & tt & ops & H) Hs. cbn [__init__ bind] in H.
  assert (D : depth_ge 0 (root self)).
  { eapply run_depth_ge; [|exact H]. apply init_loop_depth_ge. exact I. }
  apply (depth_ge_subtree p (root self) 0 v d l r D Hs).
Qed.

Lemma depth_never_below_level_witness :
  let self := after (build LEVEL_ORDER small_items) [Delete 3] in
  reachable self /\
  subtree [GoLeft] (root self) = Node 2 2 Leaf Leaf /\
  (length [GoLeft] <= 2)%nat.
Proof.
  intros self.
  assert (Hr : reachable self).
  { exists small_items, LEVEL_ORDER, [Delete 3]. reflexivity. }
  split; [exact Hr|]. split; [reflexivity|].
  exact (depth_never_below_level self [GoLeft] 2 2 Leaf Leaf Hr eq_refl).
Defined.

(** X13. In a tree that only the constructor and [insert] have touched,
    the depth field of every node is exactly the number of links between
    the node and the root (0 at the root). *)
Theorem depth_exact_without_delete
  (tt : TraverseType) (items more : list Z)
  (p : list dir) (v : Z) (d : nat) (l r : tree) :
  subtree p (root (init_loop (build tt items) more)) = Node v d l r ->
  d = length p.
Proof.
  intros Hs.
  assert (D : depth_ok 0 (root (init_loop (build tt items) more))).
  { unfold build. rewrite <- init_loop_app. apply (build_depth_ok tt). }
  apply (depth_ok_subtree p _ 0 v d l r D Hs).
Qed.

Lemma depth_exact_without_delete_witness :
  subtree [GoLeft; GoLeft; GoRight]
    (root (init_loop (build PRE_ORDER [22; 19; 9]) [11; 17]))
  = Node 11 3 Leaf (Node 17 4 Leaf Leaf) /\
  (3 = length [GoLeft; GoLeft; GoRight])%nat.
Proof.
  split; [reflexivity|].
  exact (depth_exact_without_delete PRE_ORDER [22; 19; 9] [11; 17]
           [GoLeft; GoLeft; GoRight] 11 3 Leaf (Node 17 4 Leaf Leaf) eq_refl).
Defined.

(** ** More on the traversals *)

(** X14. Level-order iteration, on every tree: the nodes come out in
    groups of equal depth field, one group for each depth field that
    occurs, and inside a group in the order of the pre-order walk. *)
Theorem level_order_grouped (self : BinaryTree) :
  traverse_type self = LEVEL_ORDER ->
  exists keys,
    NoDup keys /\
    (forall k, In k keys <->
               exists n, In n (__iter__ self) /\ has_depth k n = true) /\
    __iter__ self =
    flat_map (fun k => filter (has_depth k) (_pre_order (root self))) keys.
Proof.
  intros Ht.
  destruct (_level_order_groups (root self)) as (ND & K & E).
  exists (dict_keys (_level_fill (root self) [])).
  split; [exact ND|]. split.
  - intros k. rewrite (K k). split; intros (n & Hn & Hd); exists n; split; auto.
    + eapply Permutation_in; [apply Permutation_sym, __iter___Permutation | exact Hn].
    + eapply Permutation_in; [apply __iter___Permutation | exact Hn].
  - unfold __iter__. rewrite Ht. exact E.
Qed.

Lemma level_order_grouped_witness :
  let self := after (build LEVEL_ORDER small_items) [Delete 3] in
  traverse_type self = LEVEL_ORDER /\
  exists keys,
    NoDup keys /\
    (forall k, In k keys <->
               exists n, In n (__iter__ self) /\ has_depth k n = true) /\
    __iter__ self =
    flat_map (fun k => filter (has_depth k) (_pre_order (root self))) keys.
Proof.
  intros self. split; [reflexivity|].
  exact (level_order_grouped self eq_refl).
Defined.

Lemma init_loop_traverse_type (items : list Z) (self : BinaryTree) :
  traverse_type (init_loop self items) = traverse_type self.
Proof.
  revert self; induction items as [|i items IH]; intros self; simpl; [reflexivity|].
  rewrite IH. reflexivity.
Qed.

(** X15. Level-order iteration of a tree that only the constructor and
    [insert] have touched is a true breadth-first order: level 0, then
    level 1, and so on up to the last level, each level in the order of
    the pre-order walk (left to right). *)
Theorem level_order_without_delete (items more : list Z) :
  let self := init_loop (build LEVEL_ORDER items) more in
  traverse_type self = LEVEL_ORDER /\
  depth_ok 0 (root self) /\
  __iter__ self =
  flat_map (fun k => filter (has_depth k) (_pre_order (root self)))
           (seq 0 (height (root self))).
Proof.
  intros self.
  assert (D : depth_ok 0 (root self)).
  { subst self. unfold build. rewrite <- init_loop_app.
    apply (build_depth_ok LEVEL_ORDER). }
  assert (Ht : traverse_type self = LEVEL_ORDER).
  { subst self. unfold build. rewrite !init_loop_traverse_type. reflexivity. }
  split; [exact Ht|]. split; [exact D|].
  unfold __iter__. rewrite Ht. apply _level_order_increasing, D.
Qed.

(** X16. The four traversal orders yield the same node objects, each one
    once: in every reachable state the sequence under one order is a
    rearrangement of the sequence under any other, and no value occurs in
    it twice. *)
Theorem traversals_same_nodes (self : BinaryTree) (tt : TraverseType) :
  reachable self ->
  Permutation (__iter__ (with_order tt self)) (__iter__ self) /\
  NoDup (values_of (__iter__ self)) /\
  NoDup (__iter__ self).
Proof.
  intros Hr.
  assert (P : Permutation (__iter__ (with_order tt self)) (__iter__ self)).
  { apply (Permutation_trans (__iter___Permutation (with_order tt self))).
    apply Permutation_sym, (__iter___Permutation self). }
  assert (NV : NoDup (values_of (__iter__ self))).
  { apply (Permutation_NoDup (l := values_of (_in_order (root self)))).
    - apply values_of_Permutation.
      eapply Permutation_trans; [apply _in_order_Permutation|].
      apply Permutation_sym, __iter___Permutation.
    - apply StronglySorted_lt_NoDup, _in_order_sorted, reachable_bst, Hr. }
  split; [exact P|]. split; [exact NV|].
  revert NV. generalize (__iter___is_node self). generalize (__iter__ self).
  induction 1 as [|n nodes Hn _ IH]; intros NV; [constructor|].
  destruct n as [|v d l r]; [destruct Hn|]. cbn [values_of] in NV.
  inversion NV as [|? ? Hv NV']; subst. constructor; [|apply IH, NV'].
  intros Hin. apply Hv. clear - Hin.
  induction nodes as [|[|w dw wl wr] nodes IH]; simpl in *; [tauto| |].
  - destruct Hin as [Hin|Hin]; [discriminate | auto].
  - destruct Hin as [[= -> _ _ _]|Hin]; auto.
Qed.

Lemma traversals_same_nodes_witness :
  let self := after (build POST_ORDER demo_items) [Delete 9; Delete 22] in
  reachable self /\
  Permutation (__iter__ (with_order LEVEL_ORDER self)) (__iter__ self) /\
  NoDup (values_of (__iter__ self)) /\
  NoDup (__iter__ self).
Proof.
  intros self.
  assert (Hr : reachable self).
  { exists demo_items, POST_ORDER, [Delete 9; Delete 22]. reflexivity. }
  split; [exact Hr|].
  exact (traversals_same_nodes self LEVEL_ORDER Hr).
Defined.

(** ** The helpers of delete *)

(** X17. On a node object whose subtree satisfies the ordering invariant,
    [_search_min] returns the least value of the subtree and
    [_delete_min] returns the subtree without exactly that value, still
    ordered and one node smaller; neither raises.  (On [None] both raise
    [AttributeError].) *)
Theorem search_min_delete_min (t : tree) :
  is_node t -> bst t ->
  exists m t',
    _search_min t = Ok m /\ _delete_min t = Ok t' /\
    stored m t /\
    (forall x, stored x t -> m <= x) /\
    (forall x, stored x t' <-> stored x t /\ x <> m) /\
    bst t' /\
    size t = S (size t').
Proof.
  intros Hn B.
  destruct (min_spec t Hn) as (m & t' & Hs & Hd & Hst & Hb & Hsz).
  destruct (Hb B) as (B' & Hm).
  exists m, t'. split; [exact Hs|]. split; [exact Hd|].
  split; [apply Hst; auto|]. split; [|split; [|split; [exact B'|exact Hsz]]].
  - intros x Hx. apply Hst in Hx. destruct Hx as [->|Hx]; [lia|].
    specialize (Hm _ Hx). lia.
  - intros x. rewrite (Hst x). split.
    + intros Hx. split; [auto|]. specialize (Hm _ Hx). lia.
    + intros [[->|Hx] Hne]; [contradiction | exact Hx].
Qed.

Lemma search_min_delete_min_witness :
  let t := Node 8 1 (Node 6 2 Leaf (Node 7 3 Leaf Leaf)) (Node 9 2 Leaf Leaf) in
  is_node t /\ bst t /\
  exists m t',
    _search_min t = Ok m /\ _delete_min t = Ok t' /\
    stored m t /\
    (forall x, stored x t -> m <= x) /\
    (forall x, stored x t' <-> stored x t /\ x <> m) /\
    bst t' /\
    size t = S (size t').
Proof.
  intros t.
  assert (B : bst t) by (simpl; intuition lia).
  split; [exact I|]. split; [exact B|].
  exact (search_min_delete_min t I B).
Defined.

(** ** No rebalancing *)

Lemma _insert_spine (a : list Z) (v : Z) (k : nat) :
  (forall x, In x a -> x < v) ->
  _insert (spine a k) v k = spine (a ++ [v]) k.
Proof.
  revert k; induction a as [|x a IH]; intros k Ha; simpl.
  - reflexivity.
  - assert (Hx : x < v) by (apply Ha; simpl; auto).
    destruct (Z.eqb_spec v x); [lia|].
    destruct (Z.ltb_spec v x); [lia|].
    rewrite IH; [reflexivity|]. intros y Hy. apply Ha. simpl. auto.
Qed.

Lemma StronglySorted_lt_snoc_inv (a : list Z) (v : Z) :
  StronglySorted Z.lt (a ++ [v]) ->
  StronglySorted Z.lt a /\ forall x, In x a -> x < v.
Proof.
  induction a as [|y a IH]; simpl; intros S.
  - split; [constructor | tauto].
  - inversion S as [|? ? S' Hy]; subst.
    destruct (IH S') as (Sa & Ha).
    rewrite Forall_forall in Hy. split.
    + constructor; [exact Sa|]. apply Forall_forall.
      intros z Hz. apply Hy, in_or_app. auto.
    + intros x [<-|Hx]; [|auto]. apply Hy, in_or_app. simpl. auto.
Qed.

Lemma spine_height (a : list Z) (k : nat) : height (spine a k) = length a.
Proof.
  revert k; induction a as [|x a IH]; intros k; simpl; [reflexivity|].
  rewrite IH. reflexivity.
Qed.

(** X18. Nothing rebalances the tree: built from a strictly ascending
    sequence, it is a list in disguise.  Each value is the right child of
    the one before, no node has a left child, and the height equals the
    number of values. *)
Theorem ascending_input_degenerates (tt : TraverseType) (items : list Z) :
  StronglySorted Z.lt items ->
  root (build tt items) = spine items 0 /\
  height (root (build tt items)) = length items.
Proof.
  intros S.
  assert (E : root (build tt items) = spine items 0).
  { induction items as [|v a IH] using rev_ind; [reflexivity|].
    apply StronglySorted_lt_snoc_inv in S. destruct S as (Sa & Ha).
    unfold build in *. rewrite init_loop_app. cbn [init_loop insert root].
    rewrite (IH Sa). apply _insert_spine, Ha. }
  rewrite E. split; [reflexivity | apply spine_height].
Qed.

Lemma ascending_input_degenerates_witness :
  StronglySorted Z.lt [1; 2; 3; 4] /\
  root (build PRE_ORDER [1; 2; 3; 4]) = spine [1; 2; 3; 4] 0 /\
  height (root (build PRE_ORDER [1; 2; 3; 4])) = length [1; 2; 3; 4].
Proof.
  assert (S : StronglySorted Z.lt [1; 2; 3; 4]).
  { repeat (constructor; [|repeat constructor; lia]). constructor. }
  split; [exact S|].
  exact (ascending_input_degenerates PRE_ORDER [1; 2; 3; 4] S).
Defined.

(** ** Comparing nodes *)

(** X19. On node objects the six comparison methods never raise and
    describe one total order, that of the values: exactly one of [a < b],
    [a == b], [a > b] holds; [<=] is [<] or [==], [>=] is [>] or [==],
    [!=] is the negation of [==]; and swapping the operands swaps [<]
    with [>] and keeps [==]. *)
Theorem node_comparisons_consistent (a b : tree) :
  is_node a -> is_node b ->
  exists lt eq gt : bool,
    __lt__ a (OfNode b) = Ok lt /\
    __eq__ a (OfNode b) = Ok eq /\
    __gt__ a (OfNode b) = Ok gt /\
    __le__ a (OfNode b) = Ok (lt || eq) /\
    __ge__ a (OfNode b) = Ok (gt || eq) /\
    __ne__ a (OfNode b) = Ok (negb eq) /\
    __gt__ b (OfNode a) = Ok lt /\
    __eq__ b (OfNode a) = Ok eq /\
    __lt__ b (OfNode a) = Ok gt /\
    ((lt = true /\ eq = false /\ gt = false) \/
     (lt = false /\ eq = true /\ gt = false) \/
     (lt = false /\ eq = false /\ gt = true)).
Proof.
  destruct a as [|v d l r]; [intros []|]. destruct b as [|w dw wl wr]; [intros _ []|].
  intros _ _. exists (v <? w), (v =? w), (v >? w). cbn.
  rewrite !Z.gtb_ltb, Z.geb_leb, (Z.eqb_sym w v).
  destruct (Z.ltb_spec v w), (Z.eqb_spec v w), (Z.ltb_spec w v),
    (Z.leb_spec v w), (Z.leb_spec w v); try lia; cbn; auto 20.
Qed.

Lemma node_comparisons_consistent_witness :
  let a := Node 3 1 (Node 2 2 Leaf Leaf) Leaf in
  let b := Node 8 1 Leaf (Node 9 2 Leaf Leaf) in
  is_node a /\ is_node b /\
  exists lt eq gt : bool,
    __lt__ a (OfNode b) = Ok lt /\
    __eq__ a (OfNode b) = Ok eq /\
    __gt__ a (OfNode b) = Ok gt /\
    __le__ a (OfNode b) = Ok (lt || eq) /\
    __ge__ a (OfNode b) = Ok (gt || eq) /\
    __ne__ a (OfNode b) = Ok (negb eq) /\
    __gt__ b (OfNode a) = Ok lt /\
    __eq__ b (OfNode a) = Ok eq /\
    __lt__ b (OfNode a) = Ok gt /\
    ((lt = true /\ eq = false /\ gt = false) \/
     (lt = false /\ eq = true /\ gt = false) \/
     (lt = false /\ eq = false /\ gt = true)).
Proof.
  intros a b. split; [exact I|]. split; [exact I|].
  exact (node_comparisons_consistent a b I I).
Defined.

(** A node compares by its value and by nothing else: comparing a
    node with another node gives what comparing it with that node's bare
    value gives, whatever the depth fields and the children are.  So two
    nodes of different subtrees are [==] as soon as their values are. *)
Lemma node_comparison_by_value_only (a b : tree) (value : Z) :
  is_node a -> value_of b = Some value ->
  __lt__ a (OfNode b) = __lt__ a (OfValue value) /\
  __le__ a (OfNode b) = __le__ a (OfValue value) /\
  __eq__ a (OfNode b) = __eq__ a (OfValue value) /\
  __ne__ a (OfNode b) = __ne__ a (OfValue value) /\
  __gt__ a (OfNode b) = __gt__ a (OfValue value) /\
  __ge__ a (OfNode b) = __ge__ a (OfValue value) /\
  __eq__ a (OfValue value) = Ok (Node_eq a value).
Proof.
  destruct a as [|v d l r]; [intros []|]. intros _.
  destruct b as [|w dw wl wr]; [discriminate|]. intros [= ->].
  repeat split.
Qed.

Lemma node_comparison_by_value_only_witness :
  let a := Node 5 0 Leaf Leaf in
  let b := Node 5 3 (Node 2 4 Leaf Leaf) (Node 9 4 Leaf Leaf) in
  is_node a /\ value_of b = Some 5 /\
  a <> b /\
  __eq__ a (OfNode b) = Ok true /\
  __eq__ a (OfNode b) = __eq__ a (OfValue 5).
Proof.
  intros a b. split; [exact I|]. split; [reflexivity|].
  split; [discriminate|]. split; [reflexivity|].
  exact (proj1 (proj2 (proj2 (node_comparison_by_value_only a b 5 I eq_refl)))).
Defined.




(** ** The drawing made by view *)











